(** * QCfiles_Merge: the header normalisation, validation, projection and
      merge pipeline of [app.py], embedded and verified.

    Python strings are sequences of code points.  The development works on
    the code points U+0000..U+00FF, one [ascii] each (Latin-1); on this range
    [isspace], the regular-expression class [\s] and [str.lower] are the
    tables below.  The [.str] methods of a pandas index of strings apply
    the Python string methods label by label. *)

From Stdlib Require Import String Ascii List Arith ZArith Bool Lia PeanoNat.
From Equations Require Import Equations.
Import ListNotations.

Local Open Scope list_scope.

(** ** Characters *)

(** The code point of a character. *)
Definition code (c : ascii) : nat := nat_of_ascii c.

(** [str.isspace] on one code point, which is also the class [\s] of [re]
    for a [str] pattern. *)
Definition isspace (c : ascii) : bool :=
  let n := code c in
  ((9 <=? n) && (n <=? 13)) || ((28 <=? n) && (n <=? 32))
  || (n =? 133) || (n =? 160).

(** [str.lower] on one code point: A-Z and the Latin-1 capitals
    U+00C0..U+00DE (the multiplication sign U+00D7 apart) move up by 32. *)
Definition lower_char (c : ascii) : ascii :=
  let n := code c in
  if ((65 <=? n) && (n <=? 90))
     || ((192 <=? n) && (n <=? 222) && negb (n =? 215))
  then ascii_of_nat (n + 32) else c.

Definition hyphen : ascii := "-"%char.
Definition space : ascii := " "%char.

Definition is_hyphen (c : ascii) : bool := Ascii.eqb c hyphen.

(** ** String operations used by the header normalisation (app.py 100-104) *)

Definition lower (s : list ascii) : list ascii := map lower_char s.

Fixpoint lstrip (s : list ascii) : list ascii :=
  match s with
  | [] => []
  | c :: r => if isspace c then lstrip r else s
  end.

Definition rstrip (s : list ascii) : list ascii := rev (lstrip (rev s)).

(** [str.strip()] with no argument: whitespace is removed at both ends. *)
Definition strip (s : list ascii) : list ascii := rstrip (lstrip s).

(** The replacement text [" - "]. *)
Definition repl : list ascii := [space; hyphen; space].

(** One attempt to match [\s*-\s*] where [s] starts: the greedy [\s*] takes
    the whole run of whitespace, a hyphen must follow, and the second greedy
    [\s*] takes the run after it.  The result is the text left after the
    match.  Giving back whitespace cannot help the first [\s*]: the character
    it would leave to the hyphen is whitespace. *)
Definition match_here (s : list ascii) : option (list ascii) :=
  match lstrip s with
  | c :: r => if is_hyphen c then Some (lstrip r) else None
  | [] => None
  end.

Lemma lstrip_length (s : list ascii) : length (lstrip s) <= length s.
Proof.
  induction s as [|c r IH]; simpl; [lia|].
  destruct (isspace c); simpl; lia.
Qed.

Lemma match_here_shorter (s rest : list ascii) :
  match_here s = Some rest -> length rest < length s.
Proof.
  unfold match_here. intros H.
  pose proof (lstrip_length s) as Hs.
  destruct (lstrip s) as [|c r]; [discriminate|].
  destruct (is_hyphen c); [|discriminate].
  injection H as <-. pose proof (lstrip_length r). simpl in Hs. lia.
Qed.

Definition inspect {A : Type} (a : A) : { b : A | a = b } := exist _ a eq_refl.

(** [re.sub(r"\s*-\s*", " - ", s)]: scan from the left; where the pattern
    matches, emit the replacement and go on after the match; where it does
    not, copy one character and go on with the next. *)
Equations re_sub (s : list ascii) : list ascii by wf (length s) lt :=
  re_sub [] := [];
  re_sub (c :: r) with inspect (match_here (c :: r)) => {
    | exist _ (Some rest) e := repl ++ re_sub rest;
    | exist _ None _ := c :: re_sub r }.
Next Obligation. exact (match_here_shorter _ _ e). Qed.

(** The whole chain [.str.strip().str.replace(...).str.lower()] on one
    label. *)
Definition normalize_chars (s : list ascii) : list ascii :=
  lower (re_sub (strip s)).

(** Lifting of a character-level function to [string]. *)
Definition on_chars (f : list ascii -> list ascii) (x : string) : string :=
  string_of_list_ascii (f (list_ascii_of_string x)).

Definition normalize (x : string) : string := on_chars normalize_chars x.

Definition str_lower (x : string) : string := on_chars lower x.

(** ** The normalisation as the specification words it

    [x.split("-")]: the pieces between the hyphens, never an empty list. *)
Fixpoint split_on (sep : ascii) (s : list ascii) : list (list ascii) :=
  match s with
  | [] => [[]]
  | c :: r =>
      if Ascii.eqb c sep then [] :: split_on sep r
      else match split_on sep r with
           | p :: ps => (c :: p) :: ps
           | [] => [[c]]
           end
  end.

(** What follows a hyphen: the hyphen with one space on each side, then the
    next piece without the whitespace run that touched the hyphen; the piece
    also loses its trailing run when another hyphen follows it. *)
Fixpoint after_hyphen (pieces : list (list ascii)) : list ascii :=
  match pieces with
  | [] => []
  | [p] => repl ++ lstrip p
  | p :: rest => repl ++ strip p ++ after_hyphen rest
  end.

(** The hyphen-spacing rule in the specification's words: every maximal
    run of whitespace next to a hyphen goes, and the hyphen gets one space
    before and one after it.  The label is cut at its hyphens; the text
    before the first hyphen loses its trailing run, and [after_hyphen] writes
    each hyphen and what follows it.  A label without a hyphen is left as it
    is. *)
Definition hyphen_spacing_spec (t : list ascii) : list ascii :=
  match split_on hyphen t with
  | [] => []
  | [p] => p
  | p :: rest => rstrip p ++ after_hyphen rest
  end.

(** Strip, then fix the spacing of every hyphen, then lower-case. *)
Definition normalize_spec (s : list ascii) : list ascii :=
  lower (hyphen_spacing_spec (strip s)).

(** [" - ".join(pieces)] *)
Fixpoint join (pieces : list (list ascii)) : list ascii :=
  match pieces with
  | [] => []
  | [p] => p
  | p :: rest => p ++ repl ++ join rest
  end.

(** Predicates on labels used in the statements. *)
Definition allws (s : list ascii) : bool := forallb isspace s.

Definition nohyphen (s : list ascii) : bool :=
  forallb (fun c => negb (is_hyphen c)) s.

(** [[p.strip() for p in s.split("-")]] *)
Definition pieces (s : list ascii) : list (list ascii) :=
  map strip (split_on hyphen s).

Local Open Scope string_scope.
Local Open Scope list_scope.

(** ** The canonical schema (app.py 76-94) *)

Definition columns : list string :=
  [ "External Code";
    "Processing Group Code";
    "Processing Group Description";
    "Best External Description - Current";
    "Current Nielsen Item ID";
    "Predicted Barcode - Current";
    "Price - Current";
    "Retailer SKU - Current";
    "Module";
    "Brand";
    "URL";
    "Category";
    "Allocation";
    "Yes/No";
    "GIC";
    "Date" ].

Definition columns_lower : list string := map str_lower columns.

(** ** Tables *)

(** A cell: a missing value, an integer, a float (of value [m * 2^e]) or a
    string. *)
Inductive cell : Type :=
  | NaN
  | Num (n : nat)
  | Float (m e : Z)
  | Str (s : string).

(** A column label: a string, or some other value (a number or a date in
    the header of a spreadsheet; NaN once the [.str] methods went over such
    a value).  Only a string label can be equal to a canonical label. *)
Inductive label : Type :=
  | Text (s : string)
  | NotText.

(** The column index of a table, by what the [.str] accessor does with it.
    [StrIndex]: an index the three [.str] calls of lines 101-103 work on;
    an index of strings is one, and its labels that are no strings come out
    as NaN.  [PlainIndex]: an index on which [.str] raises [AttributeError]
    (the range index of an empty sheet, a header of numbers or of dates);
    none of its [width] labels is a string. *)
Inductive Index : Type :=
  | StrIndex (labels : list label)
  | PlainIndex (width : nat).

Definition labels_of (index : Index) : list label :=
  match index with
  | StrIndex labels => labels
  | PlainIndex width => repeat NotText width
  end.

(** A table: the column index [df.columns] and the rows in index order. *)
Record DataFrame : Type := mkDataFrame {
  df_index : Index;
  df_rows : list (list cell)
}.

(** The labels of [df.columns], left to right. *)
Definition df_columns (df : DataFrame) : list label :=
  labels_of (df_index df).

(** A table whose labels are the given strings. *)
Definition text_frame (labels : list string) (rows : list (list cell))
    : DataFrame :=
  mkDataFrame (StrIndex (map Text labels)) rows.

(** [len(df)] *)
Definition len (df : DataFrame) : nat := length (df_rows df).

(** [df.head(n)] *)
Definition head (n : nat) (df : DataFrame) : DataFrame :=
  mkDataFrame (df_index df) (firstn n (df_rows df)).

(** The cells of the column at position [j], top to bottom. *)
Definition column_values (df : DataFrame) (j : nat) : list cell :=
  map (fun r => nth j r NaN) (df_rows df).

Inductive exn : Type :=
  | KeyError (missing : list string)
  | ValueError (msg : string)
  | AttributeError (msg : string)
  | OtherError (msg : string).

Inductive result (A : Type) : Type :=
  | Ok (a : A)
  | Raise (e : exn).
Arguments Ok {A} a.
Arguments Raise {A} e.

Definition bind {A B : Type} (r : result A) (k : A -> result B) : result B :=
  match r with
  | Ok a => k a
  | Raise e => Raise e
  end.

Notation "x <- r ;; k" := (bind r (fun x => k))
  (at level 61, r at next level, right associativity).

(** [key in t] for a tuple of strings. *)
Definition contains (index : list string) (key : string) : bool :=
  existsb (String.eqb key) index.

(** The label is the string [key]. *)
Definition is_label (key : string) (l : label) : bool :=
  match l with
  | Text s => String.eqb s key
  | NotText => false
  end.

(** [key in df.columns] for a string [key]. *)
Definition has_label (index : list label) (key : string) : bool :=
  existsb (is_label key) index.

Definition label_eqb (a b : label) : bool :=
  match a, b with
  | Text s, Text t => String.eqb s t
  | NotText, NotText => true
  | _, _ => false
  end.

Definition label_dec (a b : label) : {a = b} + {a <> b}.
Proof. decide equality. apply string_dec. Defined.

(** The chain [.str.strip().str.replace(...).str.lower()] on one label of
    an index it works on: a label that is no string gives NaN. *)
Definition normalize_label (l : label) : label :=
  match l with
  | Text s => Text (normalize s)
  | NotText => NotText
  end.

(** Lines 100-104, [df.columns = df.columns.str...]: on an index [.str]
    refuses, the accessor raises; otherwise every label is normalised. *)
Definition normalize_columns (df : DataFrame) : result DataFrame :=
  match df_index df with
  | StrIndex labels =>
      Ok (mkDataFrame (StrIndex (map normalize_label labels)) (df_rows df))
  | PlainIndex _ =>
      Raise (AttributeError "Can only use .str accessor with string values!")
  end.

(** [df.columns = new] for a list of strings: pandas refuses a new header
    of another length. *)
Definition set_columns (df : DataFrame) (new : list string)
    : result DataFrame :=
  if Nat.eqb (length new) (length (df_columns df))
  then Ok (mkDataFrame (StrIndex (map Text new)) (df_rows df))
  else Raise (ValueError "Length mismatch").

(** Positions of the columns labelled [key], left to right. *)
Definition positions (index : list label) (key : string) : list nat :=
  filter (fun i => is_label key (nth i index NotText)) (seq 0 (length index)).

Definition take (idx : list nat) (row : list cell) : list cell :=
  map (fun i => nth i row NaN) idx.

(** [df[keys]] with a list of labels: a label that is absent raises
    [KeyError]; a label carried by several columns selects all of them. *)
Definition getitem (df : DataFrame) (keys : list string) : result DataFrame :=
  match filter (fun k => negb (has_label (df_columns df) k)) keys with
  | (_ :: _) as missing => Raise (KeyError missing)
  | [] =>
      let idx := flat_map (positions (df_columns df)) keys in
      Ok (mkDataFrame
            (StrIndex (map (fun i => nth i (df_columns df) NotText) idx))
            (map (take idx) (df_rows df)))
  end.

(** Labels in order of first appearance. *)
Fixpoint union_labels (seen : list label) (l : list label) : list label :=
  match l with
  | [] => []
  | x :: r =>
      if existsb (label_eqb x) seen then union_labels seen r
      else x :: union_labels (x :: seen) r
  end.

Fixpoint index_of (key : label) (index : list label) : option nat :=
  match index with
  | [] => None
  | x :: r => if label_eqb x key then Some 0
              else option_map S (index_of key r)
  end.

(** A row of a frame with header [index], laid out under the header [cols];
    a label the frame does not have gives NaN. *)
Definition reindex_row (index cols : list label) (row : list cell)
    : list cell :=
  map (fun c => match index_of c index with
                | Some i => nth i row NaN
                | None => NaN
                end) cols.

(** A row whose cell in column [j] is cast by [cast j]. *)
Fixpoint cast_row_from (cast : nat -> cell -> cell) (j : nat)
    (row : list cell) : list cell :=
  match row with
  | [] => []
  | c :: r => cast j c :: cast_row_from cast (S j) r
  end.

Definition cast_row (cast : nat -> cell -> cell) (row : list cell)
    : list cell :=
  cast_row_from cast 0 row.

(** [pd.concat(dfs, ignore_index=True)] over frames with unique labels:
    the columns are the union of the frames' columns in order of first
    appearance, the rows are stacked frame after frame, and every column of
    the result gets one dtype.  The cast to that dtype is pandas' own:
    [unify dfs j c] stands for the cell [c] of column [j] once the frames
    [dfs] are stacked (an integer next to floats becomes a float). *)
Definition concat (unify : list DataFrame -> nat -> cell -> cell)
    (dfs : list DataFrame) : result DataFrame :=
  match dfs with
  | [] => Raise (ValueError "No objects to concatenate")
  | _ =>
      let cols := union_labels [] (flat_map df_columns dfs) in
      Ok (mkDataFrame (StrIndex cols)
            (map (cast_row (unify dfs))
               (flat_map (fun df => map (reindex_row (df_columns df) cols)
                                        (df_rows df)) dfs)))
  end.

(** ** File names (app.py 53-59)

    [file_path = tmp_path / file]: the path is cut at the slashes, empty
    components and ["."] components are dropped. *)
Definition slash : ascii := "/"%char.
Definition dot : ascii := "."%char.

Definition is_blank_part (p : list ascii) : bool :=
  match p with
  | [] => true
  | [c] => Ascii.eqb c dot
  | _ => false
  end.

Definition path_parts (file : list ascii) : list (list ascii) :=
  filter (fun p => negb (is_blank_part p)) (split_on slash file).

(** [file_path.name]: the last component.  When [file] has no component the
    path is the temporary directory itself, whose generated name has no dot
    and therefore the same (empty) suffix as the empty name used here. *)
Definition path_name (file : list ascii) : list ascii :=
  last (path_parts file) [].

(** [name.rfind(c)], [None] for -1. *)
Fixpoint rfind (c : ascii) (s : list ascii) : option nat :=
  match s with
  | [] => None
  | x :: r =>
      match rfind c r with
      | Some i => Some (S i)
      | None => if Ascii.eqb x c then Some 0 else None
      end
  end.

(** [PurePath.suffix]: [name[i:]] for the last dot, at [i], when
    [0 < i < len(name) - 1]. *)
Definition suffix_of_name (name : list ascii) : list ascii :=
  match rfind dot name with
  | Some i =>
      if ((0 <? i) && (S i <? length name))%nat then skipn i name else []
  | None => []
  end.

Definition suffix (file : string) : string :=
  on_chars (fun f => suffix_of_name (path_name f)) file.

Definition supported_extensions : list string := [".csv"; ".xlsx"; ".xls"].

Inductive parser : Type := Csv | Excel.

(** Lines 55-65: which reader a file goes to, [None] when it is skipped. *)
Definition dispatch (file : string) : option parser :=
  let ext := str_lower (suffix file) in
  if negb (contains supported_extensions ext) then None
  else if String.eqb ext ".csv" then Some Csv else Some Excel.

(** ** The run of [main] on an extracted archive *)

Inductive read_result : Type :=
  | ReadOk (df : DataFrame)
  | ReadFailed (err : string).

(** What the page shows, one constructor per [st.*] call. *)
Inductive ui_event : Type :=
  | WarnEmptyZip
  | SuccessExtracted (n : nat)
  | WarnUnsupported (file : string)
  | InfoRead (file : string) (nrows : nat)
  | ErrorReading (file : string) (err : string)
  | ErrorNoValidFiles
  | ErrorMissingColumns (file : string) (missing : list string)
  | ErrorNoCompleteColumns
  | SuccessMerged (nfiles nrows : nat)
  | PreviewHeading
  | PreviewTable (shown : DataFrame)
  | DownloadButton (data : DataFrame)
  | ErrorMerging (e : exn).

Record read_state : Type := mkReadState {
  all_dfs : list DataFrame;
  valid_files : list string;
  read_log : list ui_event
}.

(** How the second loop ends: it runs to the end, or an exception leaves it
    (nothing around the loop catches one). *)
Inductive loop_end : Type :=
  | Done (dfs_reorder : list DataFrame) (log : list ui_event)
  | Abort (log : list ui_event) (e : exn).

(** How [main] ends: it returns, with the messages shown and the frame
    [merged_df] of line 123 if the run got that far; or an exception
    leaves it. *)
Inductive outcome : Type :=
  | Returned (log : list ui_event) (merged_df : option DataFrame)
  | Raised (log : list ui_event) (e : exn).

(** Line 106: the canonical labels the header does not have. *)
Definition missing_cols (header : list label) : list string :=
  filter (fun col => negb (has_label header col)) columns_lower.

(** Lines 113-114 on a frame whose header is already normalised. *)
Definition reorder (df : DataFrame) : result DataFrame :=
  df' <- getitem df columns_lower ;;
  set_columns df' columns.

(** The frame after the header assignment of lines 100-104, when the
    accessor works. *)
Definition normalized (df : DataFrame) : DataFrame :=
  mkDataFrame (StrIndex (map normalize_label (df_columns df))) (df_rows df).

(** Where the first column labelled [key] is. *)
Definition position_of (index : list label) (key : string) : nat :=
  match index_of (Text key) index with
  | Some j => j
  | None => 0
  end.

(** [l] is [m] with some entries left out, order kept. *)
Inductive subseq {A : Type} : list A -> list A -> Prop :=
  | subseq_nil : subseq [] []
  | subseq_skip x l m : subseq l m -> subseq l (x :: m)
  | subseq_keep x l m : subseq l m -> subseq (x :: l) (x :: m).

(** A frame as the projection leaves it: the canonical header, sixteen
    cells a row. *)
Definition canonical (df : DataFrame) : Prop :=
  df_columns df = map Text columns
  /\ Forall (fun row => length row = length columns) (df_rows df).

(** Canonical frames stacked by [pd.concat]: the canonical header over
    the rows of the frames, one frame after the other, every cell cast to
    the dtype of its column. *)
Definition stacked (unify : list DataFrame -> nat -> cell -> cell)
    (dfs : list DataFrame) : DataFrame :=
  mkDataFrame (StrIndex (map Text columns))
              (map (cast_row (unify dfs)) (flat_map df_rows dfs)).

(** The labels [union_labels] has seen once it is through [l]. *)
Fixpoint seen_after (seen l : list label) : list label :=
  match l with
  | [] => seen
  | x :: r => if existsb (label_eqb x) seen then seen_after seen r
              else seen_after (x :: seen) r
  end.

(** A table with the sixteen canonical columns and a seventeenth whose label
    normalises to ["date"] as well. *)
Definition dup_table : DataFrame :=
  text_frame (columns ++ ["DATE"]) [map Num (seq 1 17)].

(** What [pd.read_excel] returns for a sheet without cells: no row, no
    column, a range index. *)
Definition empty_sheet : DataFrame := mkDataFrame (PlainIndex 0) [].

Section Main.

(** The cast of [pd.concat] and the writer of the spreadsheet file are
    pandas' own: [to_excel] gives the exception it raises, if any. *)
Variable unify : list DataFrame -> nat -> cell -> cell.
Variable to_excel : DataFrame -> option exn.

(** The parsers are outside the program: each maps the path of an
    extracted file to a table or fails with a message. *)
Variables read_csv read_excel : string -> read_result.

Definition run_parser (p : parser) (file : string) : read_result :=
  match p with
  | Csv => read_csv file
  | Excel => read_excel file
  end.

(** One turn of the loop of lines 53-70. *)
Definition read_step (st : read_state) (file : string) : read_state :=
  match dispatch file with
  | None =>
      mkReadState (all_dfs st) (valid_files st)
                  (read_log st ++ [WarnUnsupported file])
  | Some p =>
      match run_parser p file with
      | ReadOk df =>
          mkReadState (all_dfs st ++ [df]) (valid_files st ++ [file])
                      (read_log st ++ [InfoRead file (len df)])
      | ReadFailed err =>
          mkReadState (all_dfs st) (valid_files st)
                      (read_log st ++ [ErrorReading file err])
      end
  end.

Definition read_loop (files : list string) (st : read_state) : read_state :=
  fold_left read_step files st.

(** The loop of lines 98-115 over [zip(valid_files, all_dfs)]. *)
Fixpoint reorder_loop (items : list (string * DataFrame))
    (dfs_reorder : list DataFrame) (log : list ui_event) : loop_end :=
  match items with
  | [] => Done dfs_reorder log
  | (file, df) :: rest =>
      match normalize_columns df with
      | Raise e => Abort log e
      | Ok df1 =>
          match missing_cols (df_columns df1) with
          | (_ :: _) as missing =>
              reorder_loop rest dfs_reorder
                           (log ++ [ErrorMissingColumns file missing])
          | [] =>
              match reorder df1 with
              | Raise e => Abort log e
              | Ok df2 => reorder_loop rest (dfs_reorder ++ [df2]) log
              end
          end
      end
  end.

(** Lines 124-143, once [merged_df] is there: the success message, the
    preview of the first ten rows, the spreadsheet file and the download
    button.  The [st.*] calls show their message and return; an exception
    of [to_excel] is caught by line 145, after the messages shown so far,
    and there is no download button then. *)
Definition publish (nfiles : nat) (merged_df : DataFrame) : list ui_event :=
  [SuccessMerged nfiles (len merged_df); PreviewHeading;
   PreviewTable (head 10 merged_df)]
  ++ match to_excel merged_df with
     | Some e => [ErrorMerging e]
     | None => [DownloadButton merged_df]
     end.

(** [main] from the extraction on (lines 40-146); [extracted_files] is
    [zip_ref.namelist()].  The two loops run outside every [try]; the
    [try] of line 118 covers the merge and what follows it. *)
Definition main (extracted_files : list string) : outcome :=
  match extracted_files with
  | [] => Returned [WarnEmptyZip] None
  | _ =>
      let st := read_loop extracted_files
                  (mkReadState [] []
                     [SuccessExtracted (length extracted_files)]) in
      match all_dfs st with
      | [] => Returned (read_log st ++ [ErrorNoValidFiles]) None
      | _ =>
          match reorder_loop (combine (valid_files st) (all_dfs st)) []
                             (read_log st) with
          | Abort log e => Raised log e
          | Done [] log => Returned (log ++ [ErrorNoCompleteColumns]) None
          | Done dfs_reorder log =>
              match concat unify dfs_reorder with
              | Raise e => Returned (log ++ [ErrorMerging e]) None
              | Ok merged_df =>
                  Returned (log ++ publish (length dfs_reorder) merged_df)
                           (Some merged_df)
              end
          end
      end
  end.

(** *** File outcomes

    What happens to one file, taken by itself. *)
Inductive file_outcome : Type :=
  | Unsupported
  | ReadFailure (err : string)
  | HeaderRejected (e : exn)
  | MissingColumns (missing : list string)
  | Merged (source table : DataFrame)
  | Crashed (e : exn).

Definition table_outcome (df : DataFrame) : file_outcome :=
  match normalize_columns df with
  | Raise e => HeaderRejected e
  | Ok df1 =>
      match missing_cols (df_columns df1) with
      | (_ :: _) as missing => MissingColumns missing
      | [] =>
          match reorder df1 with
          | Ok t => Merged df t
          | Raise e => Crashed e
          end
      end
  end.

Definition classify (file : string) : file_outcome :=
  match dispatch file with
  | None => Unsupported
  | Some p =>
      match run_parser p file with
      | ReadFailed err => ReadFailure err
      | ReadOk df => table_outcome df
      end
  end.

(** The tables of the files that end as [Merged], in input order. *)
Definition merged_tables (files : list string) : list DataFrame :=
  flat_map (fun f => match classify f with
                     | Merged _ t => [t]
                     | _ => []
                     end) files.

Definition merged_sources (files : list string) : list DataFrame :=
  flat_map (fun f => match classify f with
                     | Merged src _ => [src]
                     | _ => []
                     end) files.

(** The per-file failures: the file could not be read, or its table
    lacks a canonical column. *)
Definition is_failure (o : file_outcome) : bool :=
  match o with
  | ReadFailure _ | MissingColumns _ => true
  | _ => false
  end.

(** The file was parsed and its table has every canonical column. *)
Definition survives_validation (o : file_outcome) : bool :=
  match o with
  | Merged _ _ | Crashed _ => true
  | _ => false
  end.

Definition was_read (o : file_outcome) : bool :=
  match o with
  | Unsupported | ReadFailure _ => false
  | _ => true
  end.

(** The file makes the second loop raise: at the header normalisation or
    at the projection. *)
Definition crashes (o : file_outcome) : bool :=
  match o with
  | HeaderRejected _ | Crashed _ => true
  | _ => false
  end.

(** The merged table of a run, if it has one. *)
Definition merged_of (o : outcome) : option DataFrame :=
  match o with
  | Returned _ m => m
  | Raised _ _ => None
  end.

Definition log_of (o : outcome) : list ui_event :=
  match o with
  | Returned log _ => log
  | Raised log _ => log
  end.

(** How a run ends, the messages left out. *)
Definition result_of (o : outcome) : result (option DataFrame) :=
  match o with
  | Returned _ m => Ok m
  | Raised _ e => Raise e
  end.

(** *** The two loops, file by file *)

(** What the first loop appends to [zip(valid_files, all_dfs)] for a
    file. *)
Definition parsed (file : string) : list (string * DataFrame) :=
  match dispatch file with
  | None => []
  | Some p =>
      match run_parser p file with
      | ReadOk df => [(file, df)]
      | ReadFailed _ => []
      end
  end.

Definition read_event (file : string) : ui_event :=
  match dispatch file with
  | None => WarnUnsupported file
  | Some p =>
      match run_parser p file with
      | ReadOk df => InfoRead file (len df)
      | ReadFailed err => ErrorReading file err
      end
  end.

Definition item_merged (it : string * DataFrame) : list DataFrame :=
  match table_outcome (snd it) with
  | Merged _ t => [t]
  | _ => []
  end.

(** The exception of the first table the second loop fails on. *)
Fixpoint first_crash (items : list (string * DataFrame)) : option exn :=
  match items with
  | [] => None
  | it :: rest =>
      match table_outcome (snd it) with
      | HeaderRejected e | Crashed e => Some e
      | _ => first_crash rest
      end
  end.

(** The messages of the second loop, up to the table it fails on. *)
Fixpoint loop_events (items : list (string * DataFrame)) : list ui_event :=
  match items with
  | [] => []
  | it :: rest =>
      match table_outcome (snd it) with
      | HeaderRejected _ | Crashed _ => []
      | MissingColumns missing =>
          ErrorMissingColumns (fst it) missing :: loop_events rest
      | _ => loop_events rest
      end
  end.

(** The claim that a run without a table that survives the validation
    has no merged table and reports that no file has complete columns. *)
Definition no_survivor_claim (files : list string) : Prop :=
  (forall f, In f files -> survives_validation (classify f) = false) ->
  merged_of (main files) = None
  /\ In ErrorNoCompleteColumns (log_of (main files)).

End Main.

(** ** A sample archive

    A table with every canonical column under other spellings and in
    another order, and one extra column; a table without [GIC]; a second
    complete table; a file that cannot be read; a file that is no table. *)
Definition full_table : DataFrame :=
  text_frame
    [ "Notes"; "date"; " GIC "; "yes/no"; "ALLOCATION"; "Category"; "url";
      "Brand"; "module"; "Retailer SKU-Current"; "price -current";
      "Predicted Barcode  -  Current"; "Current Nielsen Item ID";
      "Best External Description- Current"; "Processing Group Description";
      "processing group code"; "external code" ]
    [ map Num (seq 100 17); map Num (seq 200 17); map Num (seq 300 17) ].

Definition nogic_table : DataFrame :=
  text_frame
    [ "External Code"; "Processing Group Code"; "Processing Group Description";
      "Best External Description - Current"; "Current Nielsen Item ID";
      "Predicted Barcode - Current"; "Price - Current";
      "Retailer SKU - Current"; "Module"; "Brand"; "URL"; "Category";
      "Allocation"; "Yes/No"; "Date" ]
    [ map Num (seq 400 15); map Num (seq 500 15) ].

Definition more_table : DataFrame :=
  text_frame columns [ map Str columns; map Num (seq 700 16) ].

Definition sample_read_csv (file : string) : read_result :=
  if String.eqb file "full.csv" then ReadOk full_table
  else if String.eqb file "sub/MORE.CSV" then ReadOk more_table
  else ReadFailed "could not parse".

Definition sample_read_excel (file : string) : read_result :=
  if String.eqb file "nogic.xlsx" then ReadOk nogic_table
  else if String.eqb file "empty.xlsx" then ReadOk empty_sheet
  else ReadFailed "could not parse".

(** A cast that leaves the cells as they are, as when the stacked columns
    agree in dtype or come out as columns of objects, and a writer that
    does not fail. *)
Definition keep_cells (dfs : list DataFrame) (j : nat) (c : cell) : cell := c.

Definition writes (df : DataFrame) : option exn := None.

Definition sample_files : list string :=
  [ "full.csv"; "readme.txt"; "nogic.xlsx"; "broken.csv"; "sub/MORE.CSV" ].

Definition sample_run : outcome :=
  Eval vm_compute in
    main keep_cells writes sample_read_csv sample_read_excel sample_files.

Definition sample_merged : DataFrame :=
  Eval vm_compute in
    match merged_of sample_run with
    | Some m => m
    | None => mkDataFrame (StrIndex []) []
    end.

(** ** Further notions used in the properties of the pipeline *)

(** A label without its whitespace. *)
Definition nonspace (s : list ascii) : list ascii :=
  filter (fun c => negb (isspace c)) s.

(** A message other than the one of the [except] branch of line 146. *)
Definition not_merging_error (ev : ui_event) : Prop :=
  forall e, ev <> ErrorMerging e.

Section MainNotions.

Variable unify : list DataFrame -> nat -> cell -> cell.
Variable to_excel : DataFrame -> option exn.
Variables read_csv read_excel : string -> read_result.

(** The message of the second loop for one file. *)
Definition missing_event (file : string) : list ui_event :=
  match classify read_csv read_excel file with
  | MissingColumns missing => [ErrorMissingColumns file missing]
  | _ => []
  end.

(** The closing messages of a run in which no table makes the second loop
    raise: that no valid file was found; that no file has complete columns;
    or the messages of lines 124-146 for the merged frame. *)
Definition closing (files : list string) : list ui_event :=
  if existsb (fun f => was_read (classify read_csv read_excel f)) files
  then match merged_tables read_csv read_excel files with
       | [] => [ErrorNoCompleteColumns]
       | ts => publish to_excel (length ts) (stacked unify ts)
       end
  else [ErrorNoValidFiles].

End MainNotions.

(** The character [c] does not occur in [s]. *)
Definition lacks (c : ascii) (s : list ascii) : bool :=
  forallb (fun x => negb (Ascii.eqb x c)) s.

(** * Proofs *)

(** ** Characters *)

Ltac all_chars c :=
  destruct c as [[] [] [] [] [] [] [] []]; vm_compute; reflexivity.

Lemma isspace_lower_char c : isspace (lower_char c) = isspace c.
Proof. all_chars c. Qed.

Lemma is_hyphen_lower_char c : is_hyphen (lower_char c) = is_hyphen c.
Proof. all_chars c. Qed.

Lemma lower_char_idem c : lower_char (lower_char c) = lower_char c.
Proof. all_chars c. Qed.

Lemma is_hyphen_eq c : is_hyphen c = true -> c = hyphen.
Proof. unfold is_hyphen. apply Ascii.eqb_eq. Qed.

Lemma is_hyphen_not_space c : is_hyphen c = true -> isspace c = false.
Proof. intros H. apply is_hyphen_eq in H. subst c. reflexivity. Qed.

Lemma isspace_not_hyphen c : isspace c = true -> is_hyphen c = false.
Proof.
  intros H. destruct (is_hyphen c) eqn:E; [|reflexivity].
  apply is_hyphen_not_space in E. congruence.
Qed.

(** ** Stripping *)

Lemma lstrip_allws s : allws s = true -> lstrip s = [].
Proof.
  induction s as [|c r IH]; simpl; [reflexivity|].
  intros H. apply andb_prop in H as [Hc Hr]. rewrite Hc. auto.
Qed.

Lemma lstrip_nil_allws s : lstrip s = [] -> allws s = true.
Proof.
  induction s as [|c r IH]; simpl; [reflexivity|].
  destruct (isspace c); [auto|discriminate].
Qed.

Lemma lstrip_idem s : lstrip (lstrip s) = lstrip s.
Proof.
  induction s as [|c r IH]; simpl; [reflexivity|].
  destruct (isspace c) eqn:E; [exact IH|]. simpl. now rewrite E.
Qed.

Lemma lstrip_app_nonspace p c r :
  isspace c = false -> lstrip (p ++ c :: r) = lstrip p ++ c :: r.
Proof.
  intros Hc. induction p as [|x p IH]; simpl.
  - now rewrite Hc.
  - destruct (isspace x); [exact IH|reflexivity].
Qed.

Lemma lstrip_app_space p w :
  isspace w = true ->
  lstrip (p ++ [w]) = if allws p then [] else lstrip p ++ [w].
Proof.
  intros Hw. induction p as [|x p IH]; simpl.
  - now rewrite Hw.
  - destruct (isspace x); simpl; [exact IH|reflexivity].
Qed.

Lemma allws_rev s : allws (rev s) = allws s.
Proof.
  unfold allws. induction s as [|c r IH]; simpl; [reflexivity|].
  rewrite forallb_app, IH. simpl. rewrite andb_true_r. apply andb_comm.
Qed.

Lemma rstrip_allws s : allws s = true -> rstrip s = [].
Proof.
  intros H. unfold rstrip. rewrite lstrip_allws; [reflexivity|].
  now rewrite allws_rev.
Qed.

(** [rstrip] read from the left. *)
Lemma rstrip_cons c s :
  rstrip (c :: s) = if allws (c :: s) then [] else c :: rstrip s.
Proof.
  destruct (allws (c :: s)) eqn:E.
  - now apply rstrip_allws.
  - unfold rstrip. simpl rev.
    destruct (isspace c) eqn:Ec.
    + rewrite lstrip_app_space by exact Ec.
      simpl in E. rewrite Ec in E. simpl in E.
      rewrite allws_rev. fold (allws s) in E. rewrite E.
      rewrite rev_app_distr. reflexivity.
    + rewrite <- (app_nil_r [c]) at 1.
      change (rev s ++ [c] ++ []) with (rev s ++ c :: []).
      rewrite lstrip_app_nonspace by exact Ec.
      rewrite rev_app_distr. reflexivity.
Qed.

Lemma rstrip_app_space s w : isspace w = true -> rstrip (s ++ [w]) = rstrip s.
Proof.
  intros Hw. unfold rstrip. rewrite rev_app_distr. simpl. now rewrite Hw.
Qed.

Lemma rstrip_app_nonspace p c r :
  isspace c = false -> rstrip (p ++ c :: r) = p ++ c :: rstrip r.
Proof.
  intros Hc. induction p as [|x p IH]; simpl.
  - rewrite rstrip_cons. simpl. now rewrite Hc.
  - rewrite rstrip_cons, IH.
    replace (allws (x :: p ++ c :: r)) with false; [reflexivity|].
    symmetry. unfold allws. simpl. rewrite forallb_app. simpl. rewrite Hc.
    simpl. rewrite andb_false_r. apply andb_false_r.
Qed.

Lemma rstrip_idem s : rstrip (rstrip s) = rstrip s.
Proof. unfold rstrip. now rewrite rev_involutive, lstrip_idem. Qed.

Lemma allws_cons c s : allws (c :: s) = isspace c && allws s.
Proof. reflexivity. Qed.

Lemma lstrip_rstrip s : lstrip (rstrip s) = rstrip (lstrip s).
Proof.
  induction s as [|c r IH]; [reflexivity|].
  rewrite rstrip_cons, allws_cons. simpl lstrip.
  destruct (isspace c) eqn:Ec; simpl andb.
  - destruct (allws r) eqn:Er.
    + rewrite (lstrip_allws r Er). reflexivity.
    + simpl. rewrite Ec. exact IH.
  - simpl. rewrite Ec.
    rewrite rstrip_cons, allws_cons, Ec. reflexivity.
Qed.

Lemma strip_alt s : strip s = lstrip (rstrip s).
Proof. unfold strip. now rewrite lstrip_rstrip. Qed.

Lemma strip_idem s : strip (strip s) = strip s.
Proof.
  unfold strip.
  rewrite (lstrip_rstrip (lstrip s)), lstrip_idem, rstrip_idem. reflexivity.
Qed.

Lemma strip_cons_space w s : isspace w = true -> strip (w :: s) = strip s.
Proof. intros Hw. unfold strip. simpl. now rewrite Hw. Qed.

Lemma strip_app_space s w : isspace w = true -> strip (s ++ [w]) = strip s.
Proof.
  intros Hw. rewrite !strip_alt. now rewrite rstrip_app_space.
Qed.

(** ** Cutting at hyphens *)

Lemma split_on_not_nil sep s : split_on sep s <> [].
Proof.
  destruct s as [|c r]; simpl; [discriminate|].
  destruct (Ascii.eqb c sep); [discriminate|].
  destruct (split_on sep r); discriminate.
Qed.

Lemma split_nohyphen s : nohyphen s = true -> split_on hyphen s = [s].
Proof.
  induction s as [|c r IH]; simpl; [reflexivity|].
  intros H. apply andb_prop in H as [Hc Hr].
  fold (is_hyphen c). destruct (is_hyphen c); [discriminate|].
  now rewrite (IH Hr).
Qed.

Lemma split_app_hyphen p r :
  nohyphen p = true ->
  split_on hyphen (p ++ hyphen :: r) = p :: split_on hyphen r.
Proof.
  induction p as [|c p IH]; simpl; intros H; [reflexivity|].
  apply andb_prop in H as [Hc Hp].
  fold (is_hyphen c). destruct (is_hyphen c); [discriminate|].
  now rewrite (IH Hp).
Qed.

(** A label has no hyphen, or a first one. *)
Lemma first_hyphen s :
  nohyphen s = true \/
  exists p r, s = p ++ hyphen :: r /\ nohyphen p = true.
Proof.
  induction s as [|c s IH]; [now left|].
  destruct (is_hyphen c) eqn:Ec.
  - right. exists [], s. apply is_hyphen_eq in Ec. now subst c.
  - destruct IH as [H|(p & r & -> & Hp)].
    + left. simpl. now rewrite Ec, H.
    + right. exists (c :: p), r. split; [reflexivity|].
      simpl. now rewrite Ec, Hp.
Qed.

(** Induction along the hyphens of a label. *)
Lemma hyphen_ind (P : list ascii -> Prop) :
  (forall s, nohyphen s = true -> P s) ->
  (forall p r, nohyphen p = true -> P r -> P (p ++ hyphen :: r)) ->
  forall s, P s.
Proof.
  intros Hbase Hstep s.
  remember (length s) as n eqn:Hn.
  revert s Hn. induction n as [n IH] using lt_wf_ind. intros s ->.
  destruct (first_hyphen s) as [H|(p & r & -> & Hp)]; [now apply Hbase|].
  apply Hstep; [exact Hp|].
  apply (IH (length r)); [|reflexivity].
  rewrite length_app. simpl. lia.
Qed.

Lemma nohyphen_lstrip s : nohyphen s = true -> nohyphen (lstrip s) = true.
Proof.
  induction s as [|c r IH]; simpl; [reflexivity|].
  intros H. destruct (isspace c).
  - apply andb_prop in H as [_ Hr]. auto.
  - exact H.
Qed.

Lemma nohyphen_rev s : nohyphen (rev s) = nohyphen s.
Proof.
  unfold nohyphen. induction s as [|c r IH]; simpl; [reflexivity|].
  rewrite forallb_app, IH. simpl. rewrite andb_true_r. apply andb_comm.
Qed.

Lemma nohyphen_rstrip s : nohyphen s = true -> nohyphen (rstrip s) = true.
Proof.
  intros H. unfold rstrip. rewrite nohyphen_rev. apply nohyphen_lstrip.
  now rewrite nohyphen_rev.
Qed.

Lemma nohyphen_strip s : nohyphen s = true -> nohyphen (strip s) = true.
Proof. intros H. now apply nohyphen_rstrip, nohyphen_lstrip. Qed.

(** ** The substitution *)

Lemma match_here_nohyphen s : nohyphen s = true -> match_here s = None.
Proof.
  intros H. apply nohyphen_lstrip in H. unfold match_here.
  destruct (lstrip s) as [|c r]; [reflexivity|].
  simpl in H. destruct (is_hyphen c); [discriminate|reflexivity].
Qed.

Lemma re_sub_cons_none c r :
  match_here (c :: r) = None -> re_sub (c :: r) = c :: re_sub r.
Proof.
  intros H. simp re_sub.
  generalize (inspect (match_here (c :: r))). intros [o e].
  destruct o as [rest|]; [congruence|]. reflexivity.
Qed.

Lemma re_sub_cons_some c r rest :
  match_here (c :: r) = Some rest -> re_sub (c :: r) = repl ++ re_sub rest.
Proof.
  intros H. simp re_sub.
  generalize (inspect (match_here (c :: r))). intros [o e].
  destruct o as [rest'|]; [|congruence].
  assert (rest' = rest) by congruence. subst. reflexivity.
Qed.

Lemma re_sub_nohyphen s : nohyphen s = true -> re_sub s = s.
Proof.
  induction s as [|c r IH]; intros H; [now simp re_sub|].
  rewrite re_sub_cons_none by now apply match_here_nohyphen.
  simpl in H. apply andb_prop in H as [_ Hr]. now rewrite IH.
Qed.

Lemma match_here_allws_hyphen p r :
  allws p = true -> match_here (p ++ hyphen :: r) = Some (lstrip r).
Proof.
  intros H. unfold match_here.
  rewrite lstrip_app_nonspace by reflexivity.
  now rewrite (lstrip_allws p H).
Qed.

Lemma match_here_text_hyphen p r :
  nohyphen p = true -> allws p = false ->
  match_here (p ++ hyphen :: r) = None.
Proof.
  intros Hp Hw. unfold match_here.
  rewrite lstrip_app_nonspace by reflexivity.
  destruct (lstrip p) as [|c q] eqn:E.
  - apply lstrip_nil_allws in E. congruence.
  - apply nohyphen_lstrip in Hp. rewrite E in Hp. simpl in Hp.
    simpl. destruct (is_hyphen c); [discriminate|reflexivity].
Qed.

(** Up to the first hyphen the text is copied, less the whitespace that
    touches the hyphen; the scan goes on after the whitespace behind it. *)
Lemma re_sub_first_hyphen p r :
  nohyphen p = true ->
  re_sub (p ++ hyphen :: r) = rstrip p ++ repl ++ re_sub (lstrip r).
Proof.
  induction p as [|c p IH]; intros Hp.
  - simpl app. rewrite (re_sub_cons_some hyphen r (lstrip r)); [reflexivity|].
    apply (match_here_allws_hyphen [] r). reflexivity.
  - rewrite rstrip_cons. destruct (allws (c :: p)) eqn:Ew.
    + change ((c :: p) ++ hyphen :: r) with (c :: (p ++ hyphen :: r)).
      rewrite (re_sub_cons_some c _ (lstrip r)); [reflexivity|].
      now apply (match_here_allws_hyphen (c :: p) r).
    + change ((c :: p) ++ hyphen :: r) with (c :: (p ++ hyphen :: r)).
      rewrite re_sub_cons_none.
      * simpl in Hp. apply andb_prop in Hp as [_ Hp]. now rewrite IH.
      * now apply (match_here_text_hyphen (c :: p) r).
Qed.

Lemma after_hyphen_re_sub s :
  after_hyphen (split_on hyphen s) = repl ++ re_sub (lstrip s).
Proof.
  induction s as [s Hs|p r Hp IH] using hyphen_ind.
  - rewrite split_nohyphen by exact Hs. simpl.
    now rewrite re_sub_nohyphen by now apply nohyphen_lstrip.
  - rewrite split_app_hyphen by exact Hp.
    rewrite lstrip_app_nonspace by reflexivity.
    rewrite re_sub_first_hyphen by now apply nohyphen_lstrip.
    fold (strip p). rewrite <- IH.
    destruct (split_on hyphen r) as [|q qs] eqn:E;
      [now apply split_on_not_nil in E|].
    reflexivity.
Qed.

(** The substitution is the hyphen-spacing rule of the specification. *)
Lemma re_sub_spec t : re_sub t = hyphen_spacing_spec t.
Proof.
  unfold hyphen_spacing_spec.
  destruct (first_hyphen t) as [H|(p & r & -> & Hp)].
  - rewrite split_nohyphen by exact H. now apply re_sub_nohyphen.
  - rewrite split_app_hyphen by exact Hp.
    rewrite re_sub_first_hyphen by exact Hp.
    rewrite <- after_hyphen_re_sub.
    destruct (split_on hyphen r) as [|q qs] eqn:E;
      [now apply split_on_not_nil in E|].
    reflexivity.
Qed.

(** ** The normal form as a join of stripped pieces *)

Lemma join_cons p ps : ps <> [] -> join (p :: ps) = p ++ repl ++ join ps.
Proof. destruct ps; [congruence|reflexivity]. Qed.

Lemma join_app xs ys :
  xs <> [] -> ys <> [] -> join (xs ++ ys) = join xs ++ repl ++ join ys.
Proof.
  intros Hx Hy. induction xs as [|x xs IH]; [congruence|].
  destruct xs as [|x' xs].
  - simpl app. now rewrite join_cons.
  - change ((x :: x' :: xs) ++ ys) with (x :: ((x' :: xs) ++ ys)).
    rewrite join_cons by discriminate.
    rewrite IH by discriminate.
    rewrite (join_cons x (x' :: xs)) by discriminate.
    now rewrite <- !app_assoc.
Qed.

Lemma pieces_not_nil s : pieces s <> [].
Proof.
  unfold pieces. intros H. apply map_eq_nil in H.
  now apply split_on_not_nil in H.
Qed.

Lemma pieces_nohyphen s : nohyphen s = true -> pieces s = [strip s].
Proof. intros H. unfold pieces. now rewrite split_nohyphen. Qed.

Lemma pieces_app_hyphen p r :
  nohyphen p = true -> pieces (p ++ hyphen :: r) = strip p :: pieces r.
Proof. intros H. unfold pieces. now rewrite split_app_hyphen. Qed.

(** [re.sub] after [strip] is [" - ".join(p.strip() for p in s.split("-"))]. *)
Lemma re_sub_strip s : re_sub (strip s) = join (pieces s).
Proof.
  rewrite strip_alt.
  induction s as [s Hs|p r Hp IH] using hyphen_ind.
  - rewrite pieces_nohyphen by exact Hs. simpl. rewrite <- strip_alt.
    now apply re_sub_nohyphen, nohyphen_strip.
  - rewrite pieces_app_hyphen by exact Hp.
    rewrite rstrip_app_nonspace by reflexivity.
    rewrite lstrip_app_nonspace by reflexivity.
    rewrite re_sub_first_hyphen by now apply nohyphen_lstrip.
    rewrite IH. fold (strip p).
    now rewrite join_cons by apply pieces_not_nil.
Qed.

Lemma pieces_cons_space w s : isspace w = true -> pieces (w :: s) = pieces s.
Proof.
  intros Hw. unfold pieces. simpl. fold (is_hyphen w).
  rewrite (isspace_not_hyphen w Hw).
  destruct (split_on hyphen s) as [|q qs] eqn:E;
    [now apply split_on_not_nil in E|].
  simpl. now rewrite strip_cons_space.
Qed.

Lemma pieces_fixed s :
  Forall (fun p => nohyphen p = true /\ strip p = p) (pieces s).
Proof.
  induction s as [s Hs|p r Hp IH] using hyphen_ind.
  - rewrite pieces_nohyphen by exact Hs. constructor; [|constructor].
    split; [now apply nohyphen_strip|apply strip_idem].
  - rewrite pieces_app_hyphen by exact Hp. constructor; [|exact IH].
    split; [now apply nohyphen_strip|apply strip_idem].
Qed.

Lemma nohyphen_app a b : nohyphen (a ++ b) = nohyphen a && nohyphen b.
Proof. apply forallb_app. Qed.

Lemma pieces_join ps :
  ps <> [] ->
  Forall (fun p => nohyphen p = true /\ strip p = p) ps ->
  pieces (join ps) = ps.
Proof.
  intros Hne H. induction H as [|p ps [Hp Hs] Hps IH]; [congruence|].
  destruct ps as [|q qs].
  - simpl. rewrite pieces_nohyphen by exact Hp. now rewrite Hs.
  - rewrite join_cons by discriminate.
    change (p ++ repl ++ join (q :: qs))
      with (p ++ [space] ++ hyphen :: (space :: join (q :: qs))).
    rewrite app_assoc.
    rewrite pieces_app_hyphen
      by (rewrite nohyphen_app, Hp; reflexivity).
    rewrite strip_app_space by reflexivity.
    rewrite pieces_cons_space by reflexivity.
    rewrite IH by discriminate. now rewrite Hs.
Qed.

Lemma split_app_any a b :
  split_on hyphen (a ++ hyphen :: b) = split_on hyphen a ++ split_on hyphen b.
Proof.
  induction a as [|c a IH]; [reflexivity|].
  simpl. destruct (Ascii.eqb c hyphen).
  - now rewrite IH.
  - rewrite IH. destruct (split_on hyphen a) as [|q qs] eqn:E;
      [now apply split_on_not_nil in E|]. reflexivity.
Qed.

(** ** Lower-casing commutes with the rest *)

Lemma lstrip_lower s : lstrip (lower s) = lower (lstrip s).
Proof.
  induction s as [|c r IH]; [reflexivity|].
  simpl. rewrite isspace_lower_char. now destruct (isspace c).
Qed.

Lemma rstrip_lower s : rstrip (lower s) = lower (rstrip s).
Proof.
  unfold rstrip, lower. rewrite <- map_rev.
  fold (lower (rev s)). rewrite lstrip_lower. unfold lower. now rewrite map_rev.
Qed.

Lemma strip_lower s : strip (lower s) = lower (strip s).
Proof. unfold strip. now rewrite lstrip_lower, rstrip_lower. Qed.

Lemma nohyphen_lower s : nohyphen (lower s) = nohyphen s.
Proof.
  induction s as [|c r IH]; [reflexivity|].
  simpl. now rewrite is_hyphen_lower_char, IH.
Qed.

Lemma lower_app a b : lower (a ++ b) = lower a ++ lower b.
Proof. apply map_app. Qed.

Lemma lower_idem s : lower (lower s) = lower s.
Proof.
  unfold lower. rewrite map_map. apply map_ext. apply lower_char_idem.
Qed.

Lemma re_sub_lower s : re_sub (lower s) = lower (re_sub s).
Proof.
  remember (length s) as n eqn:Hn. revert s Hn.
  induction n as [n IH] using lt_wf_ind. intros s ->.
  destruct (first_hyphen s) as [H|(p & r & -> & Hp)].
  - rewrite re_sub_nohyphen by now rewrite nohyphen_lower.
    now rewrite re_sub_nohyphen.
  - rewrite lower_app. change (lower (hyphen :: r)) with (hyphen :: lower r).
    rewrite !re_sub_first_hyphen by (try rewrite nohyphen_lower; exact Hp).
    rewrite !lower_app, rstrip_lower, lstrip_lower.
    rewrite (IH (length (lstrip r))); [reflexivity| |reflexivity].
    rewrite length_app. simpl. pose proof (lstrip_length r). lia.
Qed.

(** ** The normalisation *)

Lemma normalize_chars_join s : normalize_chars s = lower (join (pieces s)).
Proof. unfold normalize_chars. now rewrite re_sub_strip. Qed.

Lemma normalize_chars_idem s :
  normalize_chars (normalize_chars s) = normalize_chars s.
Proof.
  unfold normalize_chars at 1.
  rewrite normalize_chars_join.
  rewrite strip_lower, re_sub_lower, lower_idem.
  rewrite re_sub_strip.
  rewrite pieces_join; [reflexivity|apply pieces_not_nil|apply pieces_fixed].
Qed.

(** C3: the header normalisation (strip, hyphen spacing, lower-case) is
    idempotent: normalising a normalised label changes nothing. *)
Theorem normalize_idempotent (x : string) :
  normalize (normalize x) = normalize x.
Proof.
  unfold normalize, on_chars.
  rewrite list_ascii_of_string_of_list_ascii.
  now rewrite normalize_chars_idem.
Qed.

(** C4: the normalisation is the composition strip, hyphen-spacing rule,
    lower-case as the specification words it; a label without a hyphen is
    only stripped and lower-cased; and a hyphen splits the work in two
    independent halves joined by [" - "]. *)
Theorem normalize_is_strip_spacing_lower (s a b : list ascii) :
  normalize_chars s = normalize_spec s
  /\ (nohyphen s = true -> normalize_chars s = lower (strip s))
  /\ normalize_chars (a ++ hyphen :: b)
     = normalize_chars a ++ repl ++ normalize_chars b.
Proof.
  split; [|split].
  - unfold normalize_chars, normalize_spec. now rewrite re_sub_spec.
  - intros H. unfold normalize_chars.
    now rewrite re_sub_nohyphen by now apply nohyphen_strip.
  - rewrite !normalize_chars_join. unfold pieces.
    rewrite split_app_any, map_app.
    rewrite join_app.
    + now rewrite !lower_app.
    + apply pieces_not_nil.
    + apply pieces_not_nil.
Qed.

Lemma normalize_is_strip_spacing_lower_witness :
  nohyphen (list_ascii_of_string " Yes/No ") = true
  /\ normalize_chars (list_ascii_of_string " Yes/No ")
     = list_ascii_of_string "yes/no".
Proof.
  split; [reflexivity|].
  destruct (normalize_is_strip_spacing_lower
              (list_ascii_of_string " Yes/No ") [] []) as (_ & H & _).
  rewrite H; reflexivity.
Defined.

(** C5: the four spellings of a hyphen between A and B all normalise to
    ["a - b"]. *)
Theorem hyphen_spellings_agree :
  normalize "A-B" = "a - b"
  /\ normalize "A -B" = "a - b"
  /\ normalize "A- B" = "a - b"
  /\ normalize "A   -   B" = "a - b".
Proof. repeat split; vm_compute; reflexivity. Qed.

(** ** Validation (app.py 106) *)

Lemma filter_subseq {A : Type} (f : A -> bool) (l : list A) :
  subseq (filter f l) l.
Proof.
  induction l as [|x l IH]; simpl; [constructor|].
  destruct (f x); now constructor.
Qed.

Lemma contains_In index key : contains index key = true <-> In key index.
Proof.
  unfold contains. rewrite existsb_exists. split.
  - intros (x & Hx & E). apply String.eqb_eq in E. now subst.
  - intros H. exists key. split; [exact H|apply String.eqb_refl].
Qed.

Lemma contains_false index key : contains index key = false <-> ~ In key index.
Proof.
  rewrite <- contains_In. destruct (contains index key); split; congruence.
Qed.

(** On the canonical labels, lower-casing already is the normalisation. *)
Lemma columns_lower_normalized : columns_lower = map normalize columns.
Proof. vm_compute. reflexivity. Qed.

Lemma is_label_eq key l : is_label key l = true <-> l = Text key.
Proof.
  destruct l as [s|]; simpl; [|split; discriminate].
  rewrite String.eqb_eq. split; [now intros ->|now intros [= ->]].
Qed.

Lemma has_label_In index key :
  has_label index key = true <-> In (Text key) index.
Proof.
  unfold has_label. rewrite existsb_exists. split.
  - intros (x & Hx & E). apply is_label_eq in E. now subst.
  - intros H. exists (Text key). split; [exact H|]. now apply is_label_eq.
Qed.

Lemma has_label_false index key :
  has_label index key = false <-> ~ In (Text key) index.
Proof.
  rewrite <- has_label_In. destruct (has_label index key); split; congruence.
Qed.

Lemma missing_cols_In header l :
  In l (missing_cols header) <-> In l columns_lower /\ ~ In (Text l) header.
Proof.
  unfold missing_cols. rewrite filter_In, negb_true_iff, has_label_false.
  reflexivity.
Qed.

Lemma missing_cols_nil header :
  missing_cols header = []
  <-> (forall l, In l columns_lower -> In (Text l) header).
Proof.
  split.
  - intros H l Hl.
    destruct (has_label header l) eqn:E; [now apply has_label_In|].
    assert (In l (missing_cols header)) as Hin
      by (apply missing_cols_In; split; [exact Hl|now apply has_label_false]).
    rewrite H in Hin. destruct Hin.
  - intros H. destruct (missing_cols header) as [|l rest] eqn:E; [reflexivity|].
    assert (In l (missing_cols header)) as Hin by (rewrite E; now left).
    apply missing_cols_In in Hin as [Hl Hn]. now apply H in Hl.
Qed.

(** C1: on the normalised header of any table, the validation returns the
    empty list exactly when every normalised canonical label is among the
    table's normalised labels; in general it returns exactly the normalised
    canonical labels the header lacks, as a subsequence of the canonical
    schema in its order.  The header may hold labels that are no strings;
    they are no canonical label. *)
Theorem validation_reports_missing (raw_header : list label) :
  let header := map normalize_label raw_header in
  (missing_cols header = [] <->
     forall c, In c columns -> In (Text (normalize c)) header)
  /\ (forall l, In l (missing_cols header) <->
        In l (map normalize columns) /\ ~ In (Text l) header)
  /\ subseq (missing_cols header) (map normalize columns).
Proof.
  intros header. split; [|split].
  - rewrite missing_cols_nil, columns_lower_normalized. split.
    + intros H c Hc. apply H. now apply in_map.
    + intros H l Hl. apply in_map_iff in Hl as (c & <- & Hc). now apply H.
  - intros l. rewrite missing_cols_In, columns_lower_normalized. reflexivity.
  - rewrite <- columns_lower_normalized. apply filter_subseq.
Qed.

(** ** Projection (app.py 113-114) *)

Lemma filter_shift (f : nat -> bool) l :
  filter f (map S l) = map S (filter (fun i => f (S i)) l).
Proof.
  induction l as [|i l IH]; simpl; [reflexivity|].
  rewrite IH. now destruct (f (S i)).
Qed.

Lemma positions_cons x index key :
  positions (x :: index) key
  = (if is_label key x then [0] else []) ++ map S (positions index key).
Proof.
  unfold positions.
  change (seq 0 (length (x :: index))) with (0 :: seq 1 (length index)).
  rewrite <- seq_shift.
  cbn [filter]. rewrite filter_shift.
  change (nth 0 (x :: index) NotText) with x.
  now destruct (is_label key x).
Qed.

Lemma is_label_dec key x :
  is_label key x = if label_dec x (Text key) then true else false.
Proof.
  destruct (label_dec x (Text key)) as [->|Hne].
  - now apply is_label_eq.
  - destruct (is_label key x) eqn:E; [|reflexivity].
    apply is_label_eq in E. contradiction.
Qed.

Lemma positions_length index key :
  length (positions index key) = count_occ label_dec index (Text key).
Proof.
  induction index as [|x index IH]; [reflexivity|].
  rewrite positions_cons, length_app, length_map, IH. cbn [count_occ].
  rewrite is_label_dec. now destruct (label_dec x (Text key)).
Qed.

Lemma positions_absent index key :
  count_occ label_dec index (Text key) = 0 -> positions index key = [].
Proof.
  intros H. apply length_zero_iff_nil. now rewrite positions_length.
Qed.

Lemma label_eqb_eq a b : label_eqb a b = true <-> a = b.
Proof.
  destruct a as [s|], b as [t|]; simpl; try (split; congruence).
  rewrite String.eqb_eq. split; [now intros ->|now intros [= ->]].
Qed.

Lemma label_eqb_refl a : label_eqb a a = true.
Proof. now apply label_eqb_eq. Qed.

Lemma label_eqb_neq a b : a <> b -> label_eqb a b = false.
Proof.
  intros H. destruct (label_eqb a b) eqn:E; [|reflexivity].
  apply label_eqb_eq in E. contradiction.
Qed.

(** A label carried by one column is found where [index_of] finds it. *)
Lemma positions_once index key :
  count_occ label_dec index (Text key) = 1 ->
  exists j, index_of (Text key) index = Some j /\ positions index key = [j]
            /\ nth j index NotText = Text key.
Proof.
  induction index as [|x index IH]; cbn [count_occ]; [discriminate|].
  rewrite positions_cons, is_label_dec. cbn [index_of].
  destruct (label_dec x (Text key)) as [->|Hne].
  - intros H. injection H as H. rewrite label_eqb_refl.
    exists 0. rewrite (positions_absent _ _ H). now repeat split.
  - intros H. destruct (IH H) as (j & Hj & Hp & Hn).
    rewrite (label_eqb_neq _ _ Hne), Hj, Hp.
    exists (S j). now repeat split.
Qed.

Lemma flat_map_singletons {A B : Type} (f : A -> list B) (g : A -> B) l :
  (forall x, In x l -> f x = [g x]) -> flat_map f l = map g l.
Proof.
  induction l as [|x l IH]; intros H; [reflexivity|].
  simpl. rewrite (H x) by now left.
  rewrite IH by (intros y Hy; apply H; now right). reflexivity.
Qed.

Lemma nth_map_lt {A B : Type} (g : A -> B) l k d d' :
  k < length l -> nth k (map g l) d' = g (nth k l d).
Proof.
  intros H. rewrite (nth_indep _ d' (g d)) by now rewrite length_map.
  apply map_nth.
Qed.

(** X6: the projection on a frame with a normalised header in which every
    canonical label names exactly one column: it succeeds, the header is the
    canonical list in its literal casing whatever the order of the input
    columns, and the column under the k-th canonical label holds the cells
    of the one source column with the matching label. *)
Lemma reorder_projection (df : DataFrame) :
  (forall c, In c columns_lower ->
             count_occ label_dec (df_columns df) (Text c) = 1) ->
  exists out,
    reorder df = Ok out
    /\ df_columns out = map Text columns
    /\ length (df_rows out) = length (df_rows df)
    /\ forall k, k < length columns ->
         let j := position_of (df_columns df) (nth k columns_lower "") in
         nth j (df_columns df) NotText = Text (nth k columns_lower "")
         /\ column_values out k = column_values df j.
Proof.
  intros Hone.
  assert (flat_map (positions (df_columns df)) columns_lower
          = map (position_of (df_columns df)) columns_lower) as Hidx.
  { apply flat_map_singletons. intros c Hc.
    destruct (positions_once _ _ (Hone c Hc)) as (j & Hj & Hp & _).
    unfold position_of. now rewrite Hj. }
  assert (filter (fun k => negb (has_label (df_columns df) k)) columns_lower
          = []) as Hmiss.
  { apply (missing_cols_nil (df_columns df)). intros c Hc.
    apply (count_occ_In label_dec). rewrite (Hone c Hc). lia. }
  unfold reorder, getitem. rewrite Hmiss, Hidx. cbn [bind].
  unfold set_columns, df_columns at 1. cbn [df_index df_rows labels_of].
  rewrite !length_map.
  change (Nat.eqb (length columns) (length columns_lower)) with true.
  cbv iota. eexists. split; [reflexivity|].
  unfold df_columns at 1. cbn [df_index df_rows labels_of].
  split; [reflexivity|]. split; [apply length_map|].
  intros k Hk.
  assert (k < length columns_lower) as Hk' by exact Hk.
  split.
  - assert (In (nth k columns_lower "") columns_lower) as Hin
      by (apply nth_In; exact Hk').
    destruct (positions_once _ _ (Hone _ Hin)) as (j & Hj & _ & Hn).
    unfold position_of. now rewrite Hj.
  - unfold column_values. cbn [df_rows]. rewrite map_map. apply map_ext.
    intros row. unfold take. rewrite map_map.
    now rewrite (nth_map_lt _ columns_lower k "" NaN Hk').
Qed.

(** C2: a table with the sixteen canonical columns and one more column
    whose label also normalises to ["date"] passes the validation, the
    selection [df[columns_lower]] then has seventeen columns, and the
    header assignment raises instead of producing the canonical table. *)
Theorem reorder_duplicate_label_raises :
  missing_cols (df_columns (normalized dup_table)) = []
  /\ (exists sel, getitem (normalized dup_table) columns_lower = Ok sel
                  /\ length (df_columns sel) = 17)
  /\ reorder (normalized dup_table) = Raise (ValueError "Length mismatch").
Proof.
  split; [|split].
  - vm_compute. reflexivity.
  - eexists. split; vm_compute; reflexivity.
  - vm_compute. reflexivity.
Qed.

(** C6: an archive whose one file parses to such a table: the table has no
    missing column, and the run ends with the exception of the header
    assignment, raised out of the loop, whatever the cast of the merge and
    the writer of the spreadsheet would do. *)
Theorem duplicate_label_aborts_run
    (unify : list DataFrame -> nat -> cell -> cell)
    (to_excel : DataFrame -> option exn) :
  table_outcome dup_table = Crashed (ValueError "Length mismatch")
  /\ main unify to_excel
          (fun _ => ReadOk dup_table) (fun _ => ReadOk dup_table) ["dup.csv"]
     = Raised [SuccessExtracted 1; InfoRead "dup.csv" 1]
              (ValueError "Length mismatch").
Proof. split; vm_compute; reflexivity. Qed.
(** ** Concatenation of canonical frames *)

Lemma union_labels_seen seen l :
  (forall x, In x l -> existsb (label_eqb x) seen = true) ->
  union_labels seen l = [].
Proof.
  induction l as [|x l IH]; intros H; [reflexivity|].
  simpl. rewrite (H x) by now left.
  apply IH. intros y Hy. apply H. now right.
Qed.

Lemma union_labels_app seen a b :
  union_labels seen (a ++ b)
  = union_labels seen a ++ union_labels (seen_after seen a) b.
Proof.
  revert seen. induction a as [|x a IH]; intros seen; [reflexivity|].
  simpl. destruct (existsb (label_eqb x) seen); simpl; now rewrite IH.
Qed.

Lemma union_labels_columns :
  union_labels [] (map Text columns) = map Text columns.
Proof. vm_compute. reflexivity. Qed.

Lemma seen_after_columns x :
  In x (map Text columns) ->
  existsb (label_eqb x) (seen_after [] (map Text columns)) = true.
Proof.
  intros H. apply existsb_exists. exists x. split; [|apply label_eqb_refl].
  change (seen_after [] (map Text columns)) with (rev (map Text columns)).
  now apply in_rev in H.
Qed.

Lemma union_labels_canonical dfs :
  Forall canonical dfs ->
  forall seen,
    (forall x, In x (map Text columns) ->
               existsb (label_eqb x) seen = true) ->
    union_labels seen (flat_map df_columns dfs) = [].
Proof.
  intros H seen Hseen. apply union_labels_seen.
  intros x Hx. apply in_flat_map in Hx as (df & Hdf & Hx).
  rewrite Forall_forall in H. destruct (H df Hdf) as [Hc _].
  rewrite Hc in Hx. now apply Hseen.
Qed.

Lemma NoDup_columns : NoDup columns.
Proof.
  apply (NoDup_count_occ' string_dec). intros x Hx.
  unfold columns in Hx. simpl in Hx.
  repeat (destruct Hx as [<-|Hx]; [vm_compute; reflexivity|]).
  destruct Hx.
Qed.

Lemma NoDup_text_columns : NoDup (map Text columns).
Proof.
  generalize NoDup_columns. generalize columns as l.
  induction l as [|x l IH]; intros H; [constructor|].
  inversion H as [|? ? Hx Hl]; subst. cbn [map]. constructor; [|now apply IH].
  intros Hin. apply in_map_iff in Hin as (y & [= ->] & Hy). contradiction.
Qed.

(** A row laid out under its own header is unchanged. *)
Lemma reindex_row_same index row :
  NoDup index -> length row = length index ->
  reindex_row index index row = row.
Proof.
  intros Hnd. revert row.
  induction Hnd as [|x index Hx Hnd IH]; intros row Hlen.
  - destruct row; [reflexivity|discriminate].
  - destruct row as [|a row]; [discriminate|].
    injection Hlen as Hlen.
    unfold reindex_row. cbn [map]. cbn [index_of].
    rewrite label_eqb_refl. cbn [nth]. f_equal.
    transitivity (reindex_row index index row); [|now apply IH].
    unfold reindex_row. apply map_ext_in. intros c Hc.
    assert (x <> c) as Hne by (intros ->; contradiction).
    cbn [index_of]. rewrite (label_eqb_neq _ _ Hne).
    destruct (index_of c index); reflexivity.
Qed.

(** On canonical frames [pd.concat] stacks the rows and casts the cells:
    no column is added, none is reordered. *)
Lemma concat_canonical unify df dfs :
  Forall canonical (df :: dfs) ->
  concat unify (df :: dfs) = Ok (stacked unify (df :: dfs)).
Proof.
  intros H. unfold concat, stacked.
  assert (union_labels [] (flat_map df_columns (df :: dfs))
          = map Text columns) as ->.
  { cbn [flat_map]. inversion H as [|? ? [Hc _] Hrest]; subst.
    rewrite Hc, union_labels_app, union_labels_columns.
    rewrite (union_labels_canonical dfs Hrest); [apply app_nil_r|].
    apply seen_after_columns. }
  f_equal. f_equal. f_equal.
  generalize (df :: dfs) H. intros l Hl.
  induction Hl as [|d l [Hc Hrows] Hl IH]; [reflexivity|].
  cbn [flat_map]. rewrite IH. f_equal.
  rewrite Hc. rewrite <- (map_id (df_rows d)) at 2.
  apply map_ext_in. intros row Hrow.
  rewrite Forall_forall in Hrows.
  apply reindex_row_same; [apply NoDup_text_columns|].
  rewrite length_map. now apply Hrows.
Qed.

Lemma cast_row_from_length cast j row :
  length (cast_row_from cast j row) = length row.
Proof.
  revert j. induction row as [|c row IH]; intros j; [reflexivity|].
  simpl. now rewrite IH.
Qed.

Lemma cast_row_length cast row : length (cast_row cast row) = length row.
Proof. apply cast_row_from_length. Qed.

Lemma cast_row_from_id cast j row :
  (forall i c, cast i c = c) -> cast_row_from cast j row = row.
Proof.
  intros Hid. revert j. induction row as [|c row IH]; intros j; [reflexivity|].
  simpl. now rewrite Hid, IH.
Qed.

Lemma cast_rows_id cast rows :
  (forall i c, cast i c = c) -> map (cast_row cast) rows = rows.
Proof.
  intros Hid. induction rows as [|row rows IH]; [reflexivity|].
  simpl. unfold cast_row at 1. now rewrite cast_row_from_id, IH.
Qed.

(** A frame that leaves the projection is canonical. *)
Lemma reorder_canonical df out : reorder df = Ok out -> canonical out.
Proof.
  unfold reorder, getitem.
  destruct (filter _ columns_lower); [|discriminate].
  cbn [bind]. unfold set_columns, df_columns at 1.
  cbn [df_index df_rows labels_of].
  destruct (Nat.eqb _ _) eqn:E; [|discriminate].
  intros H. injection H as <-. split; [reflexivity|].
  cbn [df_rows]. apply Forall_forall. intros row Hrow.
  apply in_map_iff in Hrow as (r & <- & _).
  unfold take. rewrite length_map.
  apply Nat.eqb_eq in E. rewrite length_map in E. now symmetry.
Qed.

Lemma reorder_rows df out :
  reorder df = Ok out ->
  df_rows out
  = map (take (flat_map (positions (df_columns df)) columns_lower))
        (df_rows df).
Proof.
  unfold reorder, getitem.
  destruct (filter _ columns_lower); [|discriminate].
  cbn [bind]. unfold set_columns.
  destruct (Nat.eqb _ _); [|discriminate].
  intros H. injection H as <-. reflexivity.
Qed.

(** The header normalisation raises exactly on the indexes the accessor
    refuses, and otherwise gives the normalised frame. *)
Lemma normalize_columns_str labels rows :
  normalize_columns (mkDataFrame (StrIndex labels) rows)
  = Ok (normalized (mkDataFrame (StrIndex labels) rows)).
Proof. reflexivity. Qed.

Lemma normalize_columns_ok df df1 :
  normalize_columns df = Ok df1 -> df1 = normalized df.
Proof.
  destruct df as [[labels|width] rows]; [|discriminate].
  now intros [= <-].
Qed.

Lemma normalize_columns_raise df e :
  normalize_columns df = Raise e ->
  e = AttributeError "Can only use .str accessor with string values!"
  /\ exists width, df_index df = PlainIndex width.
Proof.
  destruct df as [[labels|width] rows]; [discriminate|].
  intros [= <-]. split; [reflexivity|]. now exists width.
Qed.

(** ** The two loops *)

Section MainFacts.

Variable unify : list DataFrame -> nat -> cell -> cell.
Variable to_excel : DataFrame -> option exn.
Variables read_csv read_excel : string -> read_result.

Abbreviation run := (main unify to_excel read_csv read_excel).
Abbreviation classify_file := (classify read_csv read_excel).
Abbreviation parsed_file := (parsed read_csv read_excel).
Abbreviation event_of := (read_event read_csv read_excel).
Abbreviation tables_of := (merged_tables read_csv read_excel).
Abbreviation sources_of := (merged_sources read_csv read_excel).

Lemma read_step_spec st file :
  read_step read_csv read_excel st file
  = mkReadState (all_dfs st ++ map snd (parsed_file file))
                (valid_files st ++ map fst (parsed_file file))
                (read_log st ++ [event_of file]).
Proof.
  unfold read_step, parsed, read_event.
  destruct (dispatch file) as [p|]; simpl.
  - destruct (run_parser read_csv read_excel p file); simpl;
      now rewrite ?app_nil_r.
  - now rewrite !app_nil_r.
Qed.

Lemma read_loop_spec files st :
  read_loop read_csv read_excel files st
  = mkReadState (all_dfs st ++ map snd (flat_map parsed_file files))
                (valid_files st ++ map fst (flat_map parsed_file files))
                (read_log st ++ map event_of files).
Proof.
  unfold read_loop. revert st.
  induction files as [|f files IH]; intros st.
  - simpl. rewrite !app_nil_r. now destruct st.
  - cbn [fold_left]. rewrite IH, read_step_spec. simpl.
    rewrite !map_app, <- !app_assoc. reflexivity.
Qed.

Lemma combine_fst_snd {A B : Type} (l : list (A * B)) :
  combine (map fst l) (map snd l) = l.
Proof.
  induction l as [|[a b] l IH]; simpl; [reflexivity|]. now rewrite IH.
Qed.

(** The outcome of a table that was read, step by step. *)
Lemma table_outcome_merged df src t :
  table_outcome df = Merged src t ->
  src = df
  /\ normalize_columns df = Ok (normalized df)
  /\ missing_cols (df_columns (normalized df)) = []
  /\ reorder (normalized df) = Ok t.
Proof.
  unfold table_outcome.
  destruct (normalize_columns df) as [df1|e] eqn:En; [|discriminate].
  apply normalize_columns_ok in En. subst df1.
  destruct (missing_cols _) eqn:Em; [|discriminate].
  destruct (reorder _) as [t'|e] eqn:Er; [|discriminate].
  intros [= <- <-]. now repeat split.
Qed.

Lemma table_outcome_was_read df : was_read (table_outcome df) = true.
Proof.
  unfold table_outcome.
  destruct (normalize_columns df); [|reflexivity].
  destruct (missing_cols _); [|reflexivity].
  now destruct (reorder _).
Qed.

(** The second loop ends on the first table on which the header
    normalisation or the projection raises, or runs through and keeps the
    projected tables in input order. *)
Lemma reorder_loop_spec items acc log :
  reorder_loop items acc log
  = match first_crash items with
    | Some e => Abort (log ++ loop_events items) e
    | None => Done (acc ++ flat_map item_merged items)
                   (log ++ loop_events items)
    end.
Proof.
  revert acc log. induction items as [|[file df] items IH]; intros acc log.
  - simpl. now rewrite !app_nil_r.
  - cbn [reorder_loop first_crash loop_events flat_map].
    unfold item_merged at 1. cbn [fst snd]. unfold table_outcome.
    destruct (normalize_columns df) as [df1|e]; [|now rewrite app_nil_r].
    destruct (missing_cols (df_columns df1)) as [|m ms].
    + destruct (reorder df1) as [t|e].
      * rewrite IH. now rewrite <- app_assoc.
      * now rewrite app_nil_r.
    + rewrite IH. now rewrite <- !app_assoc.
Qed.

Lemma item_merged_canonical items :
  Forall canonical (flat_map item_merged items).
Proof.
  apply Forall_forall. intros t Ht.
  apply in_flat_map in Ht as ([file df] & _ & Ht).
  unfold item_merged in Ht. cbn [snd] in Ht.
  destruct (table_outcome df) as [| | | |src t'|] eqn:Eo;
    try (now destruct Ht).
  destruct Ht as [<-|[]].
  apply table_outcome_merged in Eo as (_ & _ & _ & Er).
  now apply reorder_canonical in Er.
Qed.

(** The run, read off the files one by one. *)
Lemma main_spec files :
  files <> [] ->
  let items := flat_map parsed_file files in
  let rlog := SuccessExtracted (length files) :: map event_of files in
  run files
  = match items with
    | [] => Returned (rlog ++ [ErrorNoValidFiles]) None
    | _ =>
        match first_crash items with
        | Some e => Raised (rlog ++ loop_events items) e
        | None =>
            match flat_map item_merged items with
            | [] => Returned ((rlog ++ loop_events items)
                                ++ [ErrorNoCompleteColumns]) None
            | dfs =>
                Returned ((rlog ++ loop_events items)
                            ++ publish to_excel (length dfs)
                                 (stacked unify dfs))
                         (Some (stacked unify dfs))
            end
        end
    end.
Proof.
  intros Hne. cbv zeta. unfold main.
  destruct files as [|f0 files0] eqn:Ef; [congruence|]. rewrite <- Ef in *.
  rewrite read_loop_spec. cbn [all_dfs valid_files read_log app].
  rewrite combine_fst_snd.
  destruct (flat_map parsed_file files) as [|it its] eqn:Ei; [reflexivity|].
  cbn [map]. rewrite <- Ei. rewrite reorder_loop_spec. cbn [app].
  destruct (first_crash (flat_map parsed_file files)) as [e|]; [reflexivity|].
  pose proof (item_merged_canonical (flat_map parsed_file files)) as Hcan.
  destruct (flat_map item_merged (flat_map parsed_file files)) as [|d ds];
    [reflexivity|].
  rewrite (concat_canonical unify d ds Hcan). reflexivity.
Qed.

Lemma flat_map_flat_map {A B C : Type} (f : A -> list B) (g : B -> list C) l :
  flat_map g (flat_map f l) = flat_map (fun a => flat_map g (f a)) l.
Proof.
  induction l as [|a l IH]; [reflexivity|].
  simpl. now rewrite flat_map_app, IH.
Qed.

Lemma merged_tables_items files :
  tables_of files = flat_map item_merged (flat_map parsed_file files).
Proof.
  rewrite flat_map_flat_map. unfold merged_tables. apply flat_map_ext.
  intros f. unfold classify, parsed.
  destruct (dispatch f) as [p|]; [|reflexivity].
  destruct (run_parser read_csv read_excel p f) as [df|err]; [|reflexivity].
  simpl. unfold item_merged. cbn [snd]. rewrite app_nil_r. reflexivity.
Qed.

Lemma merged_tables_app a b : tables_of (a ++ b) = tables_of a ++ tables_of b.
Proof. apply flat_map_app. Qed.

(** A merged file's table has as many rows as its source, each the
    projection of the source row at the same place. *)
Lemma merged_source_rows files :
  Forall2 (fun src t =>
             df_rows t
             = map (take (flat_map (positions (df_columns (normalized src)))
                                   columns_lower))
                   (df_rows src))
          (sources_of files) (tables_of files).
Proof.
  unfold merged_sources, merged_tables.
  induction files as [|f files IH]; [constructor|].
  cbn [flat_map]. apply Forall2_app; [|exact IH].
  unfold classify.
  destruct (dispatch f) as [p|]; [|constructor].
  destruct (run_parser read_csv read_excel p f) as [df|err]; [|constructor].
  destruct (table_outcome df) as [| | | |src t|] eqn:Eo; try constructor;
    [|constructor].
  apply table_outcome_merged in Eo as (-> & _ & _ & Er).
  now rewrite (reorder_rows _ _ Er).
Qed.

Lemma merged_rows_sources files :
  map len (tables_of files) = map len (sources_of files).
Proof.
  generalize (merged_source_rows files).
  generalize (sources_of files) (tables_of files).
  induction 1 as [|src t srcs ts H _ IH]; [reflexivity|].
  cbn [map]. rewrite IH. f_equal. unfold len. rewrite H.
  now rewrite length_map.
Qed.

Lemma length_flat_map_rows dfs :
  length (flat_map df_rows dfs) = list_sum (map len dfs).
Proof.
  induction dfs as [|d dfs IH]; [reflexivity|].
  simpl. now rewrite length_app, IH.
Qed.

(** *** A file and its item *)

Lemma classify_read_failure f err :
  classify_file f = ReadFailure err ->
  parsed_file f = [] /\ event_of f = ErrorReading f err.
Proof.
  unfold classify, parsed, read_event.
  destruct (dispatch f) as [p|]; [|discriminate].
  destruct (run_parser read_csv read_excel p f) as [df|e].
  - intros H. pose proof (table_outcome_was_read df) as Hr.
    rewrite H in Hr. discriminate.
  - intros H. injection H as ->. now split.
Qed.

Lemma classify_was_read f :
  was_read (classify_file f) = true ->
  exists df, parsed_file f = [(f, df)] /\ classify_file f = table_outcome df.
Proof.
  unfold classify, parsed.
  destruct (dispatch f) as [p|]; [|discriminate].
  destruct (run_parser read_csv read_excel p f) as [df|e]; [|discriminate].
  intros _. now exists df.
Qed.

Lemma parsed_item f it :
  In it (parsed_file f) ->
  fst it = f /\ classify_file f = table_outcome (snd it).
Proof.
  unfold classify, parsed.
  destruct (dispatch f) as [p|]; [|intros []].
  destruct (run_parser read_csv read_excel p f) as [df|e]; [|intros []].
  intros [<-|[]]. now split.
Qed.

Lemma first_crash_app a b :
  first_crash (a ++ b)
  = match first_crash a with
    | Some e => Some e
    | None => first_crash b
    end.
Proof.
  induction a as [|it a IH]; [reflexivity|].
  simpl. now destruct (table_outcome (snd it)).
Qed.

Lemma loop_events_app a b :
  loop_events (a ++ b)
  = loop_events a ++ match first_crash a with
                     | Some _ => []
                     | None => loop_events b
                     end.
Proof.
  induction a as [|it a IH]; [reflexivity|].
  simpl. destruct (table_outcome (snd it)); simpl; now rewrite ?IH.
Qed.

Lemma first_crash_none items :
  (forall it, In it items -> crashes (table_outcome (snd it)) = false) ->
  first_crash items = None.
Proof.
  induction items as [|it items IH]; intros H; [reflexivity|].
  simpl. pose proof (H it (or_introl eq_refl)) as Hit.
  destruct (table_outcome (snd it)); try discriminate;
    apply IH; intros x Hx; apply H; now right.
Qed.

Lemma first_crash_files files :
  (forall f, In f files -> crashes (classify_file f) = false) ->
  first_crash (flat_map parsed_file files) = None.
Proof.
  intros H. apply first_crash_none. intros it Hit.
  apply in_flat_map in Hit as (f & Hf & Hit).
  apply parsed_item in Hit as [_ <-]. now apply H.
Qed.

(** How a run ends, read off the files. *)
Lemma result_of_run files :
  let items := flat_map parsed_file files in
  result_of (run files)
  = match first_crash items with
    | Some e => Raise e
    | None =>
        match flat_map item_merged items with
        | [] => Ok None
        | dfs => Ok (Some (stacked unify dfs))
        end
    end.
Proof.
  cbv zeta. destruct files as [|f0 fs] eqn:Ef; [reflexivity|].
  rewrite <- Ef. rewrite main_spec by (rewrite Ef; discriminate).
  destruct (flat_map parsed_file files) as [|it its] eqn:Ei; [reflexivity|].
  rewrite <- Ei.
  destruct (first_crash (flat_map parsed_file files)); [reflexivity|].
  destruct (flat_map item_merged (flat_map parsed_file files)); reflexivity.
Qed.

(** The messages of a run start with those of the first loop. *)
Lemma log_of_run_read files :
  files <> [] ->
  exists tail,
    log_of (run files)
    = (SuccessExtracted (length files) :: map event_of files) ++ tail.
Proof.
  intros Hne. rewrite main_spec by exact Hne.
  destruct (flat_map parsed_file files) as [|it its] eqn:Ei.
  - eexists. reflexivity.
  - rewrite <- Ei.
    destruct (first_crash (flat_map parsed_file files)).
    + eexists. reflexivity.
    + destruct (flat_map item_merged (flat_map parsed_file files));
        eexists; cbn [log_of]; rewrite <- app_assoc; reflexivity.
Qed.

Lemma log_of_run_loop files :
  flat_map parsed_file files <> [] ->
  forall ev, In ev (loop_events (flat_map parsed_file files)) ->
             In ev (log_of (run files)).
Proof.
  intros Hitems ev Hev.
  assert (files <> []) as Hne by (intros ->; now apply Hitems).
  rewrite main_spec by exact Hne.
  destruct (flat_map parsed_file files) as [|it its] eqn:Ei; [congruence|].
  rewrite <- Ei in *.
  destruct (first_crash (flat_map parsed_file files)).
  - cbn [log_of]. apply in_or_app. now right.
  - destruct (flat_map item_merged (flat_map parsed_file files));
      cbn [log_of]; apply in_or_app; left; apply in_or_app; now right.
Qed.

(** *** The claims on whole runs *)


(** X16: a file that cannot be read, or whose table has a header the
    accessor works on and lacks a canonical column, leaves the run as it
    would be without that file: the same merged table of the other files,
    or the same end; its read failure is among the messages; its
    missing-columns message is among them once the loop reaches the file,
    that is when no earlier table makes the loop raise. *)
Theorem failure_does_not_abort pre f post :
  is_failure (classify_file f) = true ->
  result_of (run (pre ++ f :: post)) = result_of (run (pre ++ post))
  /\ tables_of (pre ++ f :: post) = tables_of pre ++ tables_of post
  /\ (forall err, classify_file f = ReadFailure err ->
        In (ErrorReading f err) (log_of (run (pre ++ f :: post))))
  /\ (forall missing, classify_file f = MissingColumns missing ->
        (forall g, In g pre -> crashes (classify_file g) = false) ->
        In (ErrorMissingColumns f missing)
           (log_of (run (pre ++ f :: post)))).
Proof.
  intros Hfail.
  assert (first_crash (parsed_file f) = None
          /\ flat_map item_merged (parsed_file f) = []) as [Hc Hm].
  { destruct (classify_file f) as [| err | e | missing | src t | e] eqn:Ec;
      try discriminate.
    - apply classify_read_failure in Ec as [-> _]. now split.
    - destruct (classify_was_read f) as (df & Hp & Ht);
        [now rewrite Ec|].
      rewrite Hp. rewrite Ec in Ht. simpl. unfold item_merged. cbn [snd].
      rewrite <- Ht. now split. }
  split; [|split; [|split]].
  - rewrite !result_of_run. cbv zeta.
    rewrite !flat_map_app. cbn [flat_map].
    rewrite !flat_map_app, !first_crash_app, Hc, Hm. reflexivity.
  - rewrite !merged_tables_items.
    rewrite !flat_map_app. cbn [flat_map].
    rewrite !flat_map_app, Hm. reflexivity.
  - intros err Ec. apply classify_read_failure in Ec as [_ Hev].
    destruct (log_of_run_read (pre ++ f :: post)) as [tail ->];
      [now destruct pre|].
    apply in_or_app. left. right.
    rewrite map_app. apply in_or_app. right. left. exact Hev.
  - intros missing Ec Hpre.
    destruct (classify_was_read f) as (df & Hp & Ht); [now rewrite Ec|].
    rewrite Ec in Ht.
    apply log_of_run_loop.
    + rewrite flat_map_app. cbn [flat_map]. rewrite Hp.
      destruct (flat_map parsed_file pre); discriminate.
    + rewrite flat_map_app. cbn [flat_map]. rewrite Hp.
      rewrite loop_events_app, (first_crash_files pre Hpre).
      apply in_or_app. right. simpl. rewrite <- Ht. now left.
Qed.

(** C9, amended: when at least one file was read, the header
    normalisation raises on no table, and no table survives the
    validation, the run returns without a merged table, its last message
    is that no file has complete columns, and every file whose table lacks
    columns has its own message before it. *)
Theorem no_complete_columns_reported files :
  (forall f, In f files -> survives_validation (classify_file f) = false) ->
  (forall f, In f files -> crashes (classify_file f) = false) ->
  (exists f, In f files /\ was_read (classify_file f) = true) ->
  exists log,
    run files = Returned (log ++ [ErrorNoCompleteColumns]) None
    /\ forall f missing,
         In f files -> classify_file f = MissingColumns missing ->
         In (ErrorMissingColumns f missing) log.
Proof.
  intros Hnone Hsafe (f0 & Hf0 & Hread).
  assert (files <> []) as Hne by (intros ->; destruct Hf0).
  assert (forall it, In it (flat_map parsed_file files) ->
            survives_validation (table_outcome (snd it)) = false) as Hitems.
  { intros it Hit. apply in_flat_map in Hit as (f & Hf & Hit).
    apply parsed_item in Hit as [_ <-]. now apply Hnone. }
  pose proof (first_crash_files files Hsafe) as Hcrash.
  assert (flat_map item_merged (flat_map parsed_file files) = []) as Hmerged.
  { revert Hitems. generalize (flat_map parsed_file files) as items.
    induction items as [|it items IH]; intros H; [reflexivity|].
    cbn [flat_map]. rewrite IH by (intros x Hx; apply H; now right).
    pose proof (H it (or_introl eq_refl)) as Hit. unfold item_merged.
    now destruct (table_outcome (snd it)). }
  destruct (classify_was_read f0 Hread) as (df0 & Hp0 & _).
  assert (In (f0, df0) (flat_map parsed_file files)) as Hin0.
  { apply in_flat_map. exists f0. split; [exact Hf0|]. rewrite Hp0. now left. }
  exists ((SuccessExtracted (length files) :: map event_of files)
            ++ loop_events (flat_map parsed_file files)).
  split.
  - rewrite main_spec by exact Hne.
    destruct (flat_map parsed_file files) as [|it its] eqn:Ei;
      [destruct Hin0|].
    cbv iota. rewrite Hcrash, Hmerged. reflexivity.
  - intros f missing Hf Ec.
    apply in_or_app. right.
    destruct (classify_was_read f) as (df & Hp & Ht); [now rewrite Ec|].
    rewrite Ec in Ht.
    apply in_split in Hf as (pre & post & ->).
    rewrite flat_map_app in *. cbn [flat_map] in *. rewrite Hp.
    rewrite first_crash_app in Hcrash.
    rewrite loop_events_app.
    destruct (first_crash (flat_map parsed_file pre)); [discriminate|].
    apply in_or_app. right. simpl. rewrite <- Ht. now left.
Qed.

End MainFacts.

(** ** File-type dispatch (app.py 55-59) *)

Lemma on_chars_chars f x :
  list_ascii_of_string (on_chars f x) = f (list_ascii_of_string x).
Proof. unfold on_chars. apply list_ascii_of_string_of_list_ascii. Qed.

Lemma eqb_lower_slash c : Ascii.eqb (lower_char c) slash = Ascii.eqb c slash.
Proof. all_chars c. Qed.

Lemma eqb_lower_dot c : Ascii.eqb (lower_char c) dot = Ascii.eqb c dot.
Proof. all_chars c. Qed.

Lemma split_slash_lower s :
  split_on slash (lower s) = map lower (split_on slash s).
Proof.
  induction s as [|c s IH]; [reflexivity|].
  simpl. rewrite eqb_lower_slash, IH.
  destruct (Ascii.eqb c slash); [reflexivity|].
  now destruct (split_on slash s).
Qed.

Lemma is_blank_part_lower p : is_blank_part (lower p) = is_blank_part p.
Proof.
  destruct p as [|c [|d p]]; try reflexivity.
  simpl. apply eqb_lower_dot.
Qed.

Lemma path_parts_lower s : path_parts (lower s) = map lower (path_parts s).
Proof.
  unfold path_parts. rewrite split_slash_lower.
  generalize (split_on slash s) as l.
  induction l as [|p l IH]; [reflexivity|].
  simpl. rewrite is_blank_part_lower, IH.
  now destruct (is_blank_part p).
Qed.

Lemma last_lower l : last (map lower l) [] = lower (last l []).
Proof.
  induction l as [|p l IH]; [reflexivity|].
  destruct l as [|q l]; [reflexivity|]. exact IH.
Qed.

Lemma rfind_dot_lower s : rfind dot (lower s) = rfind dot s.
Proof.
  induction s as [|c s IH]; [reflexivity|].
  simpl. now rewrite IH, eqb_lower_dot.
Qed.

Lemma suffix_of_name_lower name :
  suffix_of_name (lower name) = lower (suffix_of_name name).
Proof.
  unfold suffix_of_name. rewrite rfind_dot_lower.
  destruct (rfind dot name) as [i|]; [|reflexivity].
  unfold lower at 1. rewrite length_map.
  destruct ((0 <? i) && (S i <? length name))%nat; [|reflexivity].
  unfold lower. now rewrite skipn_map.
Qed.

Lemma suffix_lower file : suffix (str_lower file) = str_lower (suffix file).
Proof.
  unfold suffix, str_lower. unfold on_chars at 1 3. f_equal.
  rewrite !on_chars_chars.
  unfold path_name.
  now rewrite path_parts_lower, last_lower, suffix_of_name_lower.
Qed.

Lemma str_lower_idem x : str_lower (str_lower x) = str_lower x.
Proof.
  unfold str_lower, on_chars.
  now rewrite list_ascii_of_string_of_list_ascii, lower_idem.
Qed.

Lemma dispatch_lower file : dispatch (str_lower file) = dispatch file.
Proof. unfold dispatch. now rewrite suffix_lower, str_lower_idem. Qed.

(** C10: the dispatch looks at the lower-cased extension only: two names
    that differ in case alone go the same way, a file is parsed exactly when
    its lower-cased extension is one of the three supported ones, and
    ["DATA.CSV"] and ["Data.XLSX"] are parsed, not skipped. *)
Theorem dispatch_case_insensitive (f g : string) :
  (str_lower f = str_lower g -> dispatch f = dispatch g)
  /\ (dispatch f <> None <-> In (str_lower (suffix f)) supported_extensions)
  /\ dispatch "DATA.CSV" = Some Csv
  /\ dispatch "Data.XLSX" = Some Excel.
Proof.
  split; [|split; [|split]].
  - intros H. now rewrite <- (dispatch_lower f), H, dispatch_lower.
  - unfold dispatch. rewrite <- contains_In.
    destruct (contains supported_extensions (str_lower (suffix f))); simpl.
    + split; [reflexivity|]. intros _.
      destruct (String.eqb _ _); discriminate.
    + split; [congruence|discriminate].
  - vm_compute. reflexivity.
  - vm_compute. reflexivity.
Qed.

Lemma dispatch_case_insensitive_witness :
  str_lower "sub/Data.XlsX" = str_lower "SUB/data.xlsx"
  /\ dispatch "sub/Data.XlsX" = dispatch "SUB/data.xlsx".
Proof.
  split; [reflexivity|].
  destruct (dispatch_case_insensitive "sub/Data.XlsX" "SUB/data.xlsx")
    as [H _].
  apply H. reflexivity.
Defined.

(** ** The sample archive *)


Lemma failure_does_not_abort_witness :
  is_failure (classify sample_read_csv sample_read_excel "nogic.xlsx") = true
  /\ result_of (main keep_cells writes sample_read_csv sample_read_excel
                     sample_files)
     = result_of (main keep_cells writes sample_read_csv sample_read_excel
                       ["full.csv"; "readme.txt"; "broken.csv"; "sub/MORE.CSV"])
  /\ In (ErrorMissingColumns "nogic.xlsx" ["gic"])
        (log_of (main keep_cells writes sample_read_csv sample_read_excel
                      sample_files)).
Proof.
  assert (is_failure (classify sample_read_csv sample_read_excel "nogic.xlsx")
          = true) as Hf by (vm_compute; reflexivity).
  split; [exact Hf|].
  destruct (failure_does_not_abort keep_cells writes
              sample_read_csv sample_read_excel
              ["full.csv"; "readme.txt"] "nogic.xlsx"
              ["broken.csv"; "sub/MORE.CSV"] Hf) as (Hr & _ & _ & Hm).
  split; [exact Hr|].
  apply (Hm ["gic"]); [vm_compute; reflexivity|].
  intros g [<-|[<-|[]]]; vm_compute; reflexivity.
Defined.

Lemma no_complete_columns_reported_witness :
  exists log,
    main keep_cells writes sample_read_csv sample_read_excel
         ["nogic.xlsx"; "broken.csv"]
    = Returned (log ++ [ErrorNoCompleteColumns]) None
    /\ In (ErrorMissingColumns "nogic.xlsx" ["gic"]) log.
Proof.
  destruct (no_complete_columns_reported keep_cells writes
              sample_read_csv sample_read_excel
              ["nogic.xlsx"; "broken.csv"]) as (log & Hrun & Hlog).
  - intros f [<-|[<-|[]]]; vm_compute; reflexivity.
  - intros f [<-|[<-|[]]]; vm_compute; reflexivity.
  - exists "nogic.xlsx". split; [now left|vm_compute; reflexivity].
  - exists log. split; [exact Hrun|].
    apply (Hlog "nogic.xlsx" ["gic"]); [now left|vm_compute; reflexivity].
Defined.

(** C9 as claimed fails on an archive whose only file cannot be read: no
    table survives the validation, and the run reports that no valid file
    was found, not that no file has complete columns. *)
Lemma no_survivor_claim_fails :
  ~ no_survivor_claim keep_cells writes
      (fun _ => ReadFailed "could not parse")
      (fun _ => ReadFailed "could not parse") ["broken.csv"].
Proof.
  unfold no_survivor_claim. intros H.
  destruct H as [_ Hin].
  - intros f [<-|[]]. vm_compute. reflexivity.
  - vm_compute in Hin.
    repeat (destruct Hin as [Hin|Hin]; [discriminate|]). destruct Hin.
Qed.

(** C8: an archive whose first file is a spreadsheet whose sheet has a
    column index without strings (the range index of an empty sheet, a
    header row of numbers) and whose second file is a complete table: the
    sheet lacks every canonical column, yet it is not reported as such;
    the accessor of line 101 raises on its index, nothing around the loop
    catches the exception, no message follows those of the first loop, and
    the second file, which alone would be merged, is never looked at. *)
Theorem plain_header_aborts_run
    (unify : list DataFrame -> nat -> cell -> cell)
    (to_excel : DataFrame -> option exn)
    (width : nat) (rows : list (list cell)) :
  let sheet := mkDataFrame (PlainIndex width) rows in
  let read_sheet := fun _ : string => ReadOk sheet in
  (forall c, In c columns_lower -> ~ In (Text c) (df_columns sheet))
  /\ main unify to_excel sample_read_csv read_sheet ["sheet.xlsx"; "full.csv"]
     = Raised [SuccessExtracted 2; InfoRead "sheet.xlsx" (length rows);
               InfoRead "full.csv" 3]
              (AttributeError
                 "Can only use .str accessor with string values!")
  /\ (exists log t,
        main unify to_excel sample_read_csv read_sheet ["full.csv"]
        = Returned log (Some t)
        /\ len t = 3).
Proof.
  cbv zeta. split; [|split].
  - intros c _ Hin. unfold df_columns in Hin. cbn [df_index labels_of] in Hin.
    apply repeat_spec in Hin. discriminate.
  - reflexivity.
  - eexists. eexists. split; [reflexivity|]. reflexivity.
Qed.

(** * Further properties of the code *)

(** ** The normalisation (app.py 100-104) *)

Lemma nonspace_app a b : nonspace (a ++ b) = nonspace a ++ nonspace b.
Proof. apply filter_app. Qed.

Lemma nonspace_lstrip s : nonspace (lstrip s) = nonspace s.
Proof.
  induction s as [|c r IH]; [reflexivity|].
  simpl. destruct (isspace c) eqn:E; simpl; [exact IH|]. now rewrite E.
Qed.

Lemma nonspace_rev s : nonspace (rev s) = rev (nonspace s).
Proof.
  induction s as [|c r IH]; [reflexivity|].
  simpl. rewrite nonspace_app, IH. simpl.
  destruct (isspace c); simpl; [apply app_nil_r|reflexivity].
Qed.

Lemma nonspace_rstrip s : nonspace (rstrip s) = nonspace s.
Proof.
  unfold rstrip.
  now rewrite nonspace_rev, nonspace_lstrip, nonspace_rev, rev_involutive.
Qed.

Lemma nonspace_strip s : nonspace (strip s) = nonspace s.
Proof. unfold strip. now rewrite nonspace_rstrip, nonspace_lstrip. Qed.

Lemma nonspace_join_pieces s : nonspace (join (pieces s)) = nonspace s.
Proof.
  induction s as [s Hs|p r Hp IH] using hyphen_ind.
  - rewrite pieces_nohyphen by exact Hs. simpl. apply nonspace_strip.
  - rewrite pieces_app_hyphen by exact Hp.
    rewrite join_cons by apply pieces_not_nil.
    rewrite !nonspace_app, IH, nonspace_strip. reflexivity.
Qed.

Lemma nonspace_lower s : nonspace (lower s) = lower (nonspace s).
Proof.
  induction s as [|c r IH]; [reflexivity|].
  simpl. rewrite isspace_lower_char.
  destruct (isspace c); simpl; now rewrite IH.
Qed.

(** X1: on a label made of the code points U+0000..U+00FF the
    normalisation touches whitespace and case only: without its whitespace,
    the normalised label is the lower-cased original without its
    whitespace; no other character is added, dropped or moved.  (The
    statement is for this range only: beyond it [str.lower] can depend on
    the neighbours of a character, as for the capital sigma, or give two
    code points for one.) *)
Theorem normalize_keeps_text (s : list ascii) :
  nonspace (normalize_chars s) = lower (nonspace s).
Proof.
  rewrite normalize_chars_join, nonspace_lower, nonspace_join_pieces.
  reflexivity.
Qed.

Lemma pieces_app_space a w : isspace w = true -> pieces (a ++ [w]) = pieces a.
Proof.
  intros Hw. induction a as [a Ha|p r Hp IH] using hyphen_ind.
  - rewrite !pieces_nohyphen; [now rewrite strip_app_space|exact Ha|].
    rewrite nohyphen_app, Ha. simpl.
    now rewrite (isspace_not_hyphen w Hw).
  - rewrite <- app_assoc. cbn [app].
    rewrite !pieces_app_hyphen by exact Hp. now rewrite IH.
Qed.

Lemma pieces_lead_ws w s : allws w = true -> pieces (w ++ s) = pieces s.
Proof.
  induction w as [|c w IH]; intros H; [reflexivity|].
  rewrite allws_cons in H. apply andb_prop in H as [Hc Hw].
  cbn [app]. rewrite pieces_cons_space by exact Hc. now apply IH.
Qed.

Lemma pieces_trail_ws s w : allws w = true -> pieces (s ++ w) = pieces s.
Proof.
  revert s. induction w as [|c w IH]; intros s H; [now rewrite app_nil_r|].
  rewrite allws_cons in H. apply andb_prop in H as [Hc Hw].
  change (s ++ c :: w) with (s ++ [c] ++ w). rewrite app_assoc.
  rewrite IH by exact Hw. now apply pieces_app_space.
Qed.

Lemma normalize_chars_lead_ws w s :
  allws w = true -> normalize_chars (w ++ s) = normalize_chars s.
Proof.
  intros H. rewrite !normalize_chars_join. now rewrite pieces_lead_ws.
Qed.

Lemma normalize_chars_trail_ws s w :
  allws w = true -> normalize_chars (s ++ w) = normalize_chars s.
Proof.
  intros H. rewrite !normalize_chars_join. now rewrite pieces_trail_ws.
Qed.

Lemma normalize_chars_app_hyphen a b :
  normalize_chars (a ++ hyphen :: b)
  = normalize_chars a ++ repl ++ normalize_chars b.
Proof.
  rewrite !normalize_chars_join. unfold pieces.
  rewrite split_app_any, map_app.
  rewrite join_app by apply pieces_not_nil.
  now rewrite !lower_app.
Qed.

(** X2: the whitespace around a hyphen does not count: whatever runs of
    whitespace stand before and after it, the label normalises like the one
    with the bare hyphen. *)
Theorem normalize_hyphen_spacing (a w1 w2 b : list ascii) :
  allws w1 = true -> allws w2 = true ->
  normalize_chars (a ++ w1 ++ hyphen :: w2 ++ b)
  = normalize_chars (a ++ hyphen :: b).
Proof.
  intros H1 H2. rewrite app_assoc.
  rewrite !normalize_chars_app_hyphen.
  now rewrite normalize_chars_trail_ws, normalize_chars_lead_ws.
Qed.

Lemma normalize_hyphen_spacing_witness :
  allws (list_ascii_of_string "  ") = true
  /\ allws (list_ascii_of_string "   ") = true
  /\ normalize_chars (list_ascii_of_string "Price  -   Current")
     = normalize_chars (list_ascii_of_string "Price-Current").
Proof.
  split; [reflexivity|]. split; [reflexivity|].
  apply (normalize_hyphen_spacing
           (list_ascii_of_string "Price") (list_ascii_of_string "  ")
           (list_ascii_of_string "   ") (list_ascii_of_string "Current"));
    reflexivity.
Defined.

Lemma normalize_chars_lower s : normalize_chars (lower s) = normalize_chars s.
Proof.
  unfold normalize_chars. now rewrite strip_lower, re_sub_lower, lower_idem.
Qed.

(** X3: two labels that differ in case, or in whitespace at either end,
    are the same column: lower-casing a label, or padding it with
    whitespace, does not change its normal form. *)
Theorem normalize_case_and_margins (x : string) (w1 s w2 : list ascii) :
  normalize (str_lower x) = normalize x
  /\ (allws w1 = true -> allws w2 = true ->
      normalize_chars (w1 ++ s ++ w2) = normalize_chars s).
Proof.
  split.
  - unfold normalize, str_lower, on_chars.
    now rewrite list_ascii_of_string_of_list_ascii, normalize_chars_lower.
  - intros H1 H2.
    now rewrite normalize_chars_lead_ws, normalize_chars_trail_ws.
Qed.

Lemma normalize_case_and_margins_witness :
  allws (list_ascii_of_string "  ") = true
  /\ allws (list_ascii_of_string " ") = true
  /\ normalize_chars (list_ascii_of_string "  GIC ")
     = normalize_chars (list_ascii_of_string "GIC").
Proof.
  split; [reflexivity|]. split; [reflexivity|].
  destruct (normalize_case_and_margins
              "GIC" (list_ascii_of_string "  ") (list_ascii_of_string "GIC")
              (list_ascii_of_string " ")) as [_ H].
  apply H; reflexivity.
Defined.

Lemma first_hyphen_unique p t l r :
  nohyphen p = true ->
  p ++ hyphen :: t = l ++ hyphen :: r ->
  (l = p /\ r = t) \/ exists l2, l = p ++ hyphen :: l2 /\ t = l2 ++ hyphen :: r.
Proof.
  revert l. induction p as [|c p IH]; intros l Hp H.
  - destruct l as [|x l]; simpl in H.
    + left. injection H as ->. now split.
    + right. injection H as <- ->. now exists l.
  - simpl in Hp. apply andb_prop in Hp as [Hc Hp].
    destruct l as [|x l]; simpl in H.
    + injection H as -> _. discriminate.
    + injection H as <- H. destruct (IH l Hp H) as [[-> ->]|(l2 & -> & ->)].
      * now left.
      * right. now exists l2.
Qed.

Lemma join_hyphen_spaced ps :
  Forall (fun p => nohyphen p = true) ps ->
  forall l r, join ps = l ++ hyphen :: r ->
  (exists l', l = l' ++ [space]) /\ (exists r', r = space :: r').
Proof.
  induction 1 as [|p ps Hp Hps IH]; intros l r H.
  - destruct l; discriminate.
  - destruct ps as [|q qs].
    + simpl in H. rewrite H, nohyphen_app in Hp. simpl in Hp.
      now rewrite andb_false_r in Hp.
    + rewrite join_cons in H by discriminate.
      change (p ++ repl ++ join (q :: qs))
        with (p ++ [space] ++ hyphen :: (space :: join (q :: qs))) in H.
      rewrite app_assoc in H.
      apply first_hyphen_unique in H
        as [[-> ->]|(l2 & -> & H)];
        [| |now rewrite nohyphen_app, Hp].
      * split; eexists; reflexivity.
      * destruct l2 as [|x l3]; [discriminate|].
        injection H as <- H.
        destruct (IH l3 r H) as [[l' ->] Hr]. split; [|exact Hr].
        exists ((p ++ [space]) ++ hyphen :: space :: l').
        now rewrite <- !app_assoc.
Qed.

Lemma join_lower ps : lower (join ps) = join (map lower ps).
Proof.
  induction ps as [|p ps IH]; [reflexivity|].
  destruct ps as [|q qs]; [reflexivity|].
  rewrite join_cons by discriminate.
  cbn [map]. rewrite (join_cons (lower p)) by discriminate.
  rewrite !lower_app. cbn [map] in IH. now rewrite IH.
Qed.

(** X4: the shape of a normalised label: lower-casing changes none of its
    characters, and every hyphen in it has a space right before it and a
    space right after it. *)
Theorem normalized_label_shape (s l r : list ascii) :
  Forall (fun c => lower_char c = c) (normalize_chars s)
  /\ (normalize_chars s = l ++ hyphen :: r ->
      (exists l', l = l' ++ [space]) /\ (exists r', r = space :: r')).
Proof.
  split.
  - unfold normalize_chars, lower. apply Forall_map, Forall_forall.
    intros c _. apply lower_char_idem.
  - rewrite normalize_chars_join, join_lower.
    apply join_hyphen_spaced. apply Forall_map.
    eapply Forall_impl; [|apply pieces_fixed].
    intros p [Hp _]. now rewrite nohyphen_lower.
Qed.

Lemma normalized_label_shape_witness :
  normalize_chars (list_ascii_of_string "A-B")
  = (list_ascii_of_string "a" ++ [space])
      ++ hyphen :: space :: list_ascii_of_string "b"
  /\ (exists l', list_ascii_of_string "a" ++ [space] = l' ++ [space])
  /\ (exists r', space :: list_ascii_of_string "b" = space :: r').
Proof.
  split; [reflexivity|].
  destruct (normalized_label_shape
              (list_ascii_of_string "A-B")
              (list_ascii_of_string "a" ++ [space])
              (space :: list_ascii_of_string "b")) as [_ H].
  apply H. reflexivity.
Defined.

(** ** Validation and projection (app.py 106-114) *)

(** X5: the validation looks at the set of labels only: a header with
    more labels never misses more, and two headers with the same labels (in
    any order, with any repetition) miss the same canonical labels. *)
Theorem validation_depends_on_label_set (h h' : list label) :
  (incl h h' -> incl (missing_cols h') (missing_cols h))
  /\ ((forall l, In l h <-> In l h') -> missing_cols h = missing_cols h').
Proof.
  split.
  - intros Hincl l Hl. apply missing_cols_In in Hl as [Hc Hn].
    apply missing_cols_In. split; [exact Hc|]. intros Hin. now apply Hn, Hincl.
  - intros Hsame. unfold missing_cols. apply filter_ext. intros c. f_equal.
    destruct (has_label h c) eqn:E.
    + symmetry. apply has_label_In, Hsame, has_label_In, E.
    + symmetry. apply has_label_false. intros Hin.
      apply has_label_false in E. now apply E, Hsame.
Qed.

Lemma validation_depends_on_label_set_witness :
  incl (df_columns (normalized nogic_table))
       (Text "gic" :: df_columns (normalized nogic_table))
  /\ incl (missing_cols (Text "gic" :: df_columns (normalized nogic_table)))
          (missing_cols (df_columns (normalized nogic_table))).
Proof.
  assert (incl (df_columns (normalized nogic_table))
               (Text "gic" :: df_columns (normalized nogic_table))) as H
    by (intros l Hl; now right).
  split; [exact H|].
  now apply (validation_depends_on_label_set
               (df_columns (normalized nogic_table))
               (Text "gic" :: df_columns (normalized nogic_table))).
Defined.

Lemma reorder_projection_witness :
  (forall c, In c columns_lower ->
     count_occ label_dec (df_columns (normalized full_table)) (Text c) = 1)
  /\ exists out,
       reorder (normalized full_table) = Ok out
       /\ df_columns out = map Text columns
       /\ length (df_rows out) = 3.
Proof.
  assert (forall c, In c columns_lower ->
            count_occ label_dec (df_columns (normalized full_table)) (Text c)
            = 1)
    as Hone.
  { intros c Hc. vm_compute in Hc.
    repeat (destruct Hc as [<-|Hc]; [vm_compute; reflexivity|]).
    destruct Hc. }
  split; [exact Hone|].
  destruct (reorder_projection (normalized full_table) Hone)
    as (out & Hout & Hcols & Hlen & _).
  exists out. split; [exact Hout|]. split; [exact Hcols|].
  rewrite Hlen. reflexivity.
Defined.

Lemma length_flat_map_sum {A B : Type} (g : A -> list B) l :
  length (flat_map g l) = list_sum (map (fun a => length (g a)) l).
Proof.
  induction l as [|a l IH]; [reflexivity|].
  simpl. now rewrite length_app, IH.
Qed.

Lemma sum_of_positive_counts {A : Type} (f : A -> nat) l :
  (forall a, In a l -> 1 <= f a) ->
  length l <= list_sum (map f l)
  /\ (list_sum (map f l) = length l -> forall a, In a l -> f a = 1).
Proof.
  induction l as [|x l IH]; intros Hpos.
  - split; [simpl; lia|]. intros _ a [].
  - destruct IH as [Hle Hall]; [intros a Ha; apply Hpos; now right|].
    pose proof (Hpos x (or_introl eq_refl)) as Hx. simpl.
    split; [lia|]. intros Hsum a [<-|Ha]; [lia|].
    apply Hall; [lia|exact Ha].
Qed.

(** Once nothing is missing, the projection can only fail on the header
    assignment. *)
Lemma reorder_after_validation df :
  missing_cols (df_columns df) = [] ->
  reorder df
  = set_columns
      (mkDataFrame
         (StrIndex
            (map (fun i => nth i (df_columns df) NotText)
                 (flat_map (positions (df_columns df)) columns_lower)))
         (map (take (flat_map (positions (df_columns df)) columns_lower))
              (df_rows df)))
      columns.
Proof.
  intros H. unfold reorder, getitem.
  change (filter (fun k => negb (has_label (df_columns df) k)) columns_lower)
    with (missing_cols (df_columns df)).
  now rewrite H.
Qed.

Lemma selected_length index :
  length (flat_map (positions index) columns_lower)
  = list_sum (map (fun c => count_occ label_dec index (Text c))
                  columns_lower).
Proof.
  rewrite length_flat_map_sum. f_equal. apply map_ext.
  intros c. apply positions_length.
Qed.

(** X7: how the projection of lines 113-114 ends, for any frame: it
    succeeds exactly on the frames in which every canonical label names one
    column and one only; it raises [KeyError] with the absent labels when a
    label is absent; and when none is absent but some label names several
    columns it raises the length mismatch of the header assignment.  It
    raises nothing else. *)
Theorem reorder_outcomes (df : DataFrame) :
  match reorder df with
  | Ok out =>
      forall c, In c columns_lower ->
                count_occ label_dec (df_columns df) (Text c) = 1
  | Raise (KeyError missing) =>
      missing = missing_cols (df_columns df) /\ missing <> []
  | Raise (ValueError msg) =>
      msg = "Length mismatch"
      /\ missing_cols (df_columns df) = []
      /\ exists c, In c columns_lower
                   /\ 1 < count_occ label_dec (df_columns df) (Text c)
  | Raise _ => False
  end.
Proof.
  destruct (missing_cols (df_columns df)) as [|m ms] eqn:Hmiss.
  - rewrite (reorder_after_validation df Hmiss).
    assert (forall c, In c columns_lower ->
              1 <= count_occ label_dec (df_columns df) (Text c)) as Hpos.
    { intros c Hc. apply (count_occ_In label_dec).
      now apply (missing_cols_nil (df_columns df)). }
    destruct (sum_of_positive_counts _ _ Hpos) as [Hle Hall].
    unfold set_columns, df_columns at 1. cbn [df_index labels_of].
    rewrite length_map, selected_length.
    change (length columns) with (length columns_lower).
    destruct (Nat.eqb _ _) eqn:E.
    + apply Nat.eqb_eq in E. intros c Hc. now apply Hall.
    + apply Nat.eqb_neq in E. split; [reflexivity|]. split; [reflexivity|].
      destruct (Exists_dec
                  (fun c => 1 < count_occ label_dec (df_columns df) (Text c))
                  columns_lower) as [Hex|Hno];
        [intros c; apply lt_dec| |].
      * apply Exists_exists in Hex. exact Hex.
      * exfalso. apply E. symmetry.
        rewrite <- (map_ext_in (fun _ => 1)).
        { clear. induction columns_lower; simpl; [reflexivity|lia]. }
        intros c Hc. pose proof (Hpos c Hc).
        destruct (lt_dec 1 (count_occ label_dec (df_columns df) (Text c)));
          [|lia].
        exfalso. apply Hno. apply Exists_exists. now exists c.
  - unfold reorder, getitem.
    change (filter (fun k => negb (has_label (df_columns df) k)) columns_lower)
      with (missing_cols (df_columns df)).
    rewrite Hmiss. cbn [bind]. split; [reflexivity|discriminate].
Qed.

(** ** Whole runs (app.py 49-146) *)

Section RunFacts.

Variable unify : list DataFrame -> nat -> cell -> cell.
Variable to_excel : DataFrame -> option exn.
Variables read_csv read_excel : string -> read_result.

Abbreviation run := (main unify to_excel read_csv read_excel).
Abbreviation classify_file := (classify read_csv read_excel).
Abbreviation parsed_file := (parsed read_csv read_excel).
Abbreviation event_of := (read_event read_csv read_excel).
Abbreviation tables_of := (merged_tables read_csv read_excel).

Lemma parsed_cases f :
  (parsed_file f = [] /\ was_read (classify_file f) = false)
  \/ exists df, parsed_file f = [(f, df)]
                /\ classify_file f = table_outcome df
                /\ was_read (classify_file f) = true.
Proof.
  unfold classify, parsed.
  destruct (dispatch f) as [p|]; [|now left].
  destruct (run_parser read_csv read_excel p f) as [df|err]; [|now left].
  right. exists df. split; [reflexivity|]. split; [reflexivity|].
  apply table_outcome_was_read.
Qed.

Lemma parsed_nil_iff files :
  flat_map parsed_file files = []
  <-> existsb (fun f => was_read (classify_file f)) files = false.
Proof.
  induction files as [|f files IH]; [now split|].
  cbn [flat_map existsb].
  destruct (parsed_cases f) as [[-> ->]|(df & -> & _ & ->)].
  - exact IH.
  - split; discriminate.
Qed.

Lemma loop_events_one f :
  crashes (classify_file f) = false ->
  loop_events (parsed_file f) = missing_event read_csv read_excel f
  /\ first_crash (parsed_file f) = None.
Proof.
  intros Hf. unfold missing_event.
  destruct (parsed_cases f) as [[-> Hr]|(df & -> & Ht & _)].
  - now destruct (classify_file f).
  - rewrite Ht in *. cbn [loop_events first_crash fst snd].
    destruct (table_outcome df); try discriminate; now split.
Qed.

Lemma loop_events_files files :
  (forall f, In f files -> crashes (classify_file f) = false) ->
  loop_events (flat_map parsed_file files)
  = flat_map (missing_event read_csv read_excel) files.
Proof.
  induction files as [|f files IH]; intros Hsafe; [reflexivity|].
  cbn [flat_map]. rewrite loop_events_app.
  destruct (loop_events_one f (Hsafe f (or_introl eq_refl))) as [-> ->].
  now rewrite IH by (intros g Hg; apply Hsafe; now right).
Qed.

Lemma len_stacked ts : len (stacked unify ts) = list_sum (map len ts).
Proof.
  unfold len at 1, stacked. cbn [df_rows].
  now rewrite length_map, length_flat_map_rows.
Qed.

(** X10: the messages of a run in which no table makes the second loop
    raise, in the order they appear: the count of extracted files; one
    message of the first loop for every file, in archive order; then one
    message for every file whose table lacks columns, in archive order;
    then the closing messages: that no valid file was found, or that no
    file has complete columns, or the success message (with the number of
    merged files and the sum of their row counts), the preview of the first
    ten rows and the download button, the last replaced by the merge error
    when writing the spreadsheet raised. *)
Theorem run_messages files :
  files <> [] ->
  (forall f, In f files -> crashes (classify_file f) = false) ->
  log_of (run files)
  = SuccessExtracted (length files)
    :: map event_of files
       ++ flat_map (missing_event read_csv read_excel) files
       ++ closing unify to_excel read_csv read_excel files
  /\ (forall ts, ts <> [] ->
        publish to_excel (length ts) (stacked unify ts)
        = [SuccessMerged (length ts) (list_sum (map len ts));
           PreviewHeading;
           PreviewTable (head 10 (stacked unify ts));
           match to_excel (stacked unify ts) with
           | Some e => ErrorMerging e
           | None => DownloadButton (stacked unify ts)
           end]).
Proof.
  intros Hne Hsafe. split.
  - rewrite main_spec by exact Hne.
    unfold closing. rewrite merged_tables_items.
    rewrite (first_crash_files _ _ files Hsafe).
    rewrite <- (loop_events_files files Hsafe).
    destruct (existsb _ files) eqn:Eread.
    + destruct (flat_map parsed_file files) as [|it its] eqn:Ei.
      * apply parsed_nil_iff in Ei. congruence.
      * cbv iota.
        destruct (flat_map item_merged (it :: its)) as [|d ds] eqn:Em;
          cbn [log_of]; rewrite <- app_assoc; reflexivity.
    + apply parsed_nil_iff in Eread. rewrite Eread. reflexivity.
  - intros ts _. unfold publish. rewrite len_stacked.
    now destruct (to_excel (stacked unify ts)).
Qed.

Lemma crashed_is_length_mismatch df e :
  table_outcome df = Crashed e -> e = ValueError "Length mismatch".
Proof.
  unfold table_outcome.
  destruct (normalize_columns df) as [df1|e1]; [|discriminate].
  destruct (missing_cols (df_columns df1)) eqn:Hm; [|discriminate].
  rewrite (reorder_after_validation _ Hm). unfold set_columns.
  destruct (Nat.eqb _ _); [discriminate|]. now intros [= <-].
Qed.

Lemma header_rejected_is_attribute_error df e :
  table_outcome df = HeaderRejected e ->
  e = AttributeError "Can only use .str accessor with string values!"
  /\ exists width, df_index df = PlainIndex width.
Proof.
  unfold table_outcome.
  destruct (normalize_columns df) as [df1|e1] eqn:En.
  - destruct (missing_cols (df_columns df1)); [|discriminate].
    destruct (reorder df1); discriminate.
  - intros [= <-]. now apply normalize_columns_raise.
Qed.

Lemma first_crash_some items e :
  first_crash items = Some e ->
  exists it, In it items
             /\ (table_outcome (snd it) = HeaderRejected e
                 \/ table_outcome (snd it) = Crashed e).
Proof.
  induction items as [|it items IH]; [discriminate|].
  simpl. destruct (table_outcome (snd it)) eqn:Et;
    try (intros H; destruct (IH H) as (x & Hx & Hc); exists x;
         now split; [right|]).
  - intros [= <-]. exists it. split; [now left|]. now left.
  - intros [= <-]. exists it. split; [now left|]. now right.
Qed.

Lemma read_events_not_merging files :
  Forall not_merging_error (map event_of files).
Proof.
  apply Forall_map, Forall_forall. intros f _ e. unfold read_event.
  destruct (dispatch f) as [p|]; [|discriminate].
  destruct (run_parser read_csv read_excel p f); discriminate.
Qed.

Lemma loop_events_not_merging items :
  Forall not_merging_error (loop_events items).
Proof.
  induction items as [|it items IH]; [constructor|].
  simpl. destruct (table_outcome (snd it)); try exact IH; try constructor.
  - intros e; discriminate.
  - exact IH.
Qed.

Lemma publish_merging_error n m e :
  In (ErrorMerging e) (publish to_excel n m) -> to_excel m = Some e.
Proof.
  unfold publish. intros H. apply in_app_or in H as [H|H].
  - repeat (destruct H as [H|H]; [discriminate|]). destruct H.
  - destruct (to_excel m) as [e'|]; destruct H as [H|[]];
      [now injection H as ->|discriminate].
Qed.

(** X8: what leaves a run and what its merge error means.  An exception
    that leaves the run is the [AttributeError] of the [.str] accessor, for
    a file whose table has a column index the accessor refuses, or the
    length mismatch of the header assignment, for a file whose table passes
    the validation with a canonical label on several columns; it is never
    a [KeyError].  And [pd.concat] never fails on what the loop
    accumulated: the merge error is shown only when the merged frame was
    built and writing the spreadsheet raised it. *)
Theorem run_exceptions files :
  (forall log e,
     run files = Raised log e ->
     (e = AttributeError "Can only use .str accessor with string values!"
      /\ exists f, In f files /\ classify_file f = HeaderRejected e)
     \/ (e = ValueError "Length mismatch"
         /\ exists f, In f files /\ classify_file f = Crashed e))
  /\ (forall e,
        In (ErrorMerging e) (log_of (run files)) ->
        exists m, merged_of (run files) = Some m /\ to_excel m = Some e).
Proof.
  split.
  - intros log e Hrun.
    assert (result_of (run files) = Raise e) as Hres by now rewrite Hrun.
    rewrite result_of_run in Hres. cbv zeta in Hres.
    destruct (first_crash (flat_map parsed_file files)) as [e'|] eqn:Ec.
    + injection Hres as ->.
      apply first_crash_some in Ec as (it & Hit & Hc).
      apply in_flat_map in Hit as (f & Hf & Hit).
      apply parsed_item in Hit as [_ Hcl].
      destruct Hc as [Hc|Hc].
      * left. split; [now apply header_rejected_is_attribute_error in Hc|].
        exists f. split; [exact Hf|]. now rewrite Hcl.
      * right. split; [now apply crashed_is_length_mismatch in Hc|].
        exists f. split; [exact Hf|]. now rewrite Hcl.
    + destruct (flat_map item_merged _); discriminate.
  - intros e Hin.
    assert (files <> []) as Hne.
    { intros ->. destruct Hin as [Hin|[]]. discriminate. }
    rewrite main_spec in * by exact Hne.
    pose proof (read_events_not_merging files) as Hr.
    pose proof (loop_events_not_merging (flat_map parsed_file files)) as Hl.
    assert (Forall not_merging_error
              (SuccessExtracted (length files) :: map event_of files))
      as Hr' by (constructor; [intros e'; discriminate|exact Hr]).
    rewrite Forall_forall in Hr', Hl.
    destruct (flat_map parsed_file files) as [|it its].
    + cbn [log_of] in Hin. apply in_app_or in Hin as [Hin|[Hin|[]]];
        [now destruct (Hr' _ Hin e)|discriminate].
    + cbv iota in *. destruct (first_crash (it :: its)).
      * cbn [log_of] in Hin. apply in_app_or in Hin as [Hin|Hin];
          [now destruct (Hr' _ Hin e)|now destruct (Hl _ Hin e)].
      * destruct (flat_map item_merged (it :: its)) as [|d ds];
          cbn [log_of merged_of] in *;
          apply in_app_or in Hin as [Hin|Hin];
          try (apply in_app_or in Hin as [Hin|Hin];
               [now destruct (Hr' _ Hin e)|now destruct (Hl _ Hin e)]).
        -- destruct Hin as [Hin|[]]. discriminate.
        -- eexists. split; [reflexivity|].
           now apply publish_merging_error in Hin.
Qed.

(** X9: after the first loop, [zip(valid_files, all_dfs)] pairs each file
    that was read with the table read from it, and nothing else: the two
    lists have one length, and a pair is in the zip exactly when the file is
    in the archive, has a supported extension and its reader returned that
    table. *)
Theorem read_loop_pairs files log0 :
  let st := read_loop read_csv read_excel files (mkReadState [] [] log0) in
  length (valid_files st) = length (all_dfs st)
  /\ forall file df,
       In (file, df) (combine (valid_files st) (all_dfs st))
       <-> In file files
           /\ exists p, dispatch file = Some p
                        /\ run_parser read_csv read_excel p file = ReadOk df.
Proof.
  cbv zeta. rewrite read_loop_spec. cbn [all_dfs valid_files app].
  split; [now rewrite !length_map|].
  intros file df. rewrite combine_fst_snd, in_flat_map. split.
  - intros (f & Hf & Hin). unfold parsed in Hin.
    destruct (dispatch f) as [p|] eqn:Ed; [|destruct Hin].
    destruct (run_parser read_csv read_excel p f) as [d|err] eqn:Er;
      [|destruct Hin].
    destruct Hin as [[= <- <-]|[]]. split; [exact Hf|]. now exists p.
  - intros (Hf & p & Hd & Hr). exists file. split; [exact Hf|].
    unfold parsed. rewrite Hd, Hr. now left.
Qed.

(** X11: a merged table is well formed: its sixteen labels are distinct
    and every one of its rows has sixteen cells, whatever the widths of the
    source tables. *)
Theorem merged_table_well_formed files log m :
  run files = Returned log (Some m) ->
  NoDup (df_columns m)
  /\ length (df_columns m) = length columns
  /\ length columns = 16
  /\ Forall (fun row => length row = 16) (df_rows m).
Proof.
  intros Hrun.
  assert (result_of (run files) = Ok (Some m)) as Hres by now rewrite Hrun.
  rewrite result_of_run in Hres. cbv zeta in Hres.
  destruct (first_crash _); [discriminate|].
  pose proof (item_merged_canonical (flat_map parsed_file files)) as Hcan.
  assert (m = stacked unify
                (flat_map item_merged (flat_map parsed_file files)))
    as -> by (destruct (flat_map item_merged _); congruence).
  unfold stacked, df_columns. cbn [df_index df_rows labels_of].
  split; [apply NoDup_text_columns|]. split; [apply length_map|].
  split; [reflexivity|].
  apply Forall_forall. intros row Hrow.
  apply in_map_iff in Hrow as (src & <- & Hsrc).
  rewrite cast_row_length.
  apply in_flat_map in Hsrc as (t & Ht & Hsrc).
  rewrite Forall_forall in Hcan. destruct (Hcan t Ht) as [_ Hrows].
  rewrite Forall_forall in Hrows. now apply Hrows.
Qed.

(** X12: a file without a supported extension is skipped with a warning:
    the run ends as it would without the file, with the same merged tables,
    and the warning for the file is among the messages. *)
Theorem unsupported_file_is_skipped pre f post :
  dispatch f = None ->
  result_of (run (pre ++ f :: post)) = result_of (run (pre ++ post))
  /\ tables_of (pre ++ f :: post) = tables_of pre ++ tables_of post
  /\ In (WarnUnsupported f) (log_of (run (pre ++ f :: post))).
Proof.
  intros Hd.
  assert (parsed_file f = []) as Hp by (unfold parsed; now rewrite Hd).
  assert (event_of f = WarnUnsupported f) as He
    by (unfold read_event; now rewrite Hd).
  split; [|split].
  - rewrite !result_of_run. cbv zeta.
    rewrite !flat_map_app. cbn [flat_map]. now rewrite Hp.
  - rewrite !merged_tables_items.
    rewrite (flat_map_app _ pre). cbn [flat_map]. rewrite Hp. cbn [app].
    now rewrite flat_map_app.
  - destruct (log_of_run_read unify to_excel read_csv read_excel
                (pre ++ f :: post))
      as [tail ->];
      [now destruct pre|].
    apply in_or_app. left. right.
    rewrite map_app. apply in_or_app. right. left. exact He.
Qed.

(** X15: one table on which the second loop raises discards the whole
    batch, be it a table whose column index the accessor refuses or one
    with a canonical label on several columns: when the files before it
    raise nothing, the run ends with the exception at that file, after the
    first-loop messages of every file and the missing-column messages of
    the files before it; the tables already accepted and the files after it
    are lost. *)
Theorem crash_discards_batch pre f post e :
  (forall g, In g pre -> crashes (classify_file g) = false) ->
  classify_file f = HeaderRejected e \/ classify_file f = Crashed e ->
  run (pre ++ f :: post)
  = Raised (SuccessExtracted (length (pre ++ f :: post))
            :: map event_of (pre ++ f :: post)
               ++ flat_map (missing_event read_csv read_excel) pre)
           e.
Proof.
  intros Hpre Hf.
  destruct (classify_was_read read_csv read_excel f) as (df & Hp & Ht);
    [now destruct Hf as [-> | ->]|].
  assert (first_crash [(f, df)] = Some e /\ loop_events [(f, df)] = [])
    as [Hc Hl].
  { cbn [first_crash loop_events snd]. rewrite <- Ht.
    now destruct Hf as [-> | ->]. }
  rewrite main_spec by now destruct pre.
  rewrite flat_map_app. cbn [flat_map]. rewrite Hp.
  change ([(f, df)] ++ flat_map parsed_file post)
    with ([(f, df)] ++ flat_map parsed_file post).
  rewrite !first_crash_app, !loop_events_app.
  rewrite (first_crash_files _ _ pre Hpre), Hc, Hl.
  rewrite (loop_events_files pre Hpre).
  cbn [app]. rewrite app_nil_r.
  destruct (flat_map parsed_file pre); reflexivity.
Qed.

End RunFacts.

Lemma run_messages_witness :
  sample_files <> []
  /\ (forall f, In f sample_files ->
        crashes (classify sample_read_csv sample_read_excel f) = false)
  /\ log_of (main keep_cells writes sample_read_csv sample_read_excel
                  sample_files)
     = [ SuccessExtracted 5; InfoRead "full.csv" 3;
         WarnUnsupported "readme.txt"; InfoRead "nogic.xlsx" 2;
         ErrorReading "broken.csv" "could not parse";
         InfoRead "sub/MORE.CSV" 2;
         ErrorMissingColumns "nogic.xlsx" ["gic"];
         SuccessMerged 2 5; PreviewHeading;
         PreviewTable (head 10 sample_merged);
         DownloadButton sample_merged ].
Proof.
  assert (forall f, In f sample_files ->
            crashes (classify sample_read_csv sample_read_excel f) = false)
    as Hsafe.
  { intros f Hf. unfold sample_files in Hf. simpl in Hf.
    repeat (destruct Hf as [<-|Hf]; [vm_compute; reflexivity|]). destruct Hf. }
  split; [discriminate|]. split; [exact Hsafe|].
  destruct (run_messages keep_cells writes sample_read_csv sample_read_excel
              sample_files) as [Hlog _];
    [discriminate|exact Hsafe|].
  rewrite Hlog. vm_compute. reflexivity.
Defined.

Lemma merged_table_well_formed_witness :
  main keep_cells writes sample_read_csv sample_read_excel sample_files
  = Returned (log_of sample_run) (Some sample_merged)
  /\ Forall (fun row => length row = 16) (df_rows sample_merged).
Proof.
  assert (main keep_cells writes sample_read_csv sample_read_excel
               sample_files
          = Returned (log_of sample_run) (Some sample_merged)) as Hrun
    by (vm_compute; reflexivity).
  split; [exact Hrun|].
  now destruct (merged_table_well_formed _ _ _ _ _ _ _ Hrun)
    as (_ & _ & _ & H).
Defined.

Lemma unsupported_file_is_skipped_witness :
  dispatch "readme.txt" = None
  /\ result_of (main keep_cells writes sample_read_csv sample_read_excel
                     sample_files)
     = result_of (main keep_cells writes sample_read_csv sample_read_excel
                       ["full.csv"; "nogic.xlsx"; "broken.csv";
                        "sub/MORE.CSV"]).
Proof.
  assert (dispatch "readme.txt" = None) as Hd by (vm_compute; reflexivity).
  split; [exact Hd|].
  now destruct (unsupported_file_is_skipped keep_cells writes
                  sample_read_csv sample_read_excel
                  ["full.csv"] "readme.txt"
                  ["nogic.xlsx"; "broken.csv"; "sub/MORE.CSV"] Hd) as [H _].
Defined.

Lemma crash_discards_batch_witness :
  (forall g, In g ["full.csv"; "nogic.xlsx"] ->
     crashes (classify sample_read_csv sample_read_excel g) = false)
  /\ classify sample_read_csv sample_read_excel "empty.xlsx"
     = HeaderRejected
         (AttributeError "Can only use .str accessor with string values!")
  /\ main keep_cells writes sample_read_csv sample_read_excel
          ["full.csv"; "nogic.xlsx"; "empty.xlsx"; "sub/MORE.CSV"]
     = Raised [ SuccessExtracted 4; InfoRead "full.csv" 3;
                InfoRead "nogic.xlsx" 2; InfoRead "empty.xlsx" 0;
                InfoRead "sub/MORE.CSV" 2;
                ErrorMissingColumns "nogic.xlsx" ["gic"] ]
              (AttributeError
                 "Can only use .str accessor with string values!").
Proof.
  assert (forall g, In g ["full.csv"; "nogic.xlsx"] ->
            crashes (classify sample_read_csv sample_read_excel g) = false)
    as Hpre.
  { intros g [<-|[<-|[]]]; vm_compute; reflexivity. }
  assert (classify sample_read_csv sample_read_excel "empty.xlsx"
          = HeaderRejected
              (AttributeError
                 "Can only use .str accessor with string values!")) as Hf
    by (vm_compute; reflexivity).
  split; [exact Hpre|]. split; [exact Hf|].
  pose proof (crash_discards_batch keep_cells writes
                sample_read_csv sample_read_excel
                ["full.csv"; "nogic.xlsx"] "empty.xlsx" ["sub/MORE.CSV"]
                _ Hpre (or_introl Hf)) as H.
  etransitivity; [exact H|]. vm_compute. reflexivity.
Defined.

Lemma run_exceptions_witness :
  main keep_cells writes
       (fun _ => ReadOk dup_table) (fun _ => ReadOk dup_table) ["dup.csv"]
  = Raised [SuccessExtracted 1; InfoRead "dup.csv" 1]
           (ValueError "Length mismatch")
  /\ exists f,
       In f ["dup.csv"]
       /\ classify (fun _ => ReadOk dup_table) (fun _ => ReadOk dup_table) f
          = Crashed (ValueError "Length mismatch").
Proof.
  assert (main keep_cells writes
               (fun _ => ReadOk dup_table) (fun _ => ReadOk dup_table)
               ["dup.csv"]
          = Raised [SuccessExtracted 1; InfoRead "dup.csv" 1]
                   (ValueError "Length mismatch")) as Hrun
    by (vm_compute; reflexivity).
  split; [exact Hrun|].
  destruct (run_exceptions keep_cells writes
              (fun _ => ReadOk dup_table) (fun _ => ReadOk dup_table)
              ["dup.csv"]) as [H _].
  destruct (H _ _ Hrun) as [[He _]|[_ Hf]]; [discriminate|exact Hf].
Defined.

(** ** File names and extensions (app.py 54-59) *)

Lemma split_on_lacks sep s : lacks sep s = true -> split_on sep s = [s].
Proof.
  induction s as [|c s IH]; [reflexivity|].
  simpl. intros H. apply andb_prop in H as [Hc Hs].
  apply negb_true_iff in Hc. rewrite Hc. now rewrite (IH Hs).
Qed.

Lemma split_on_app_sep sep a b :
  split_on sep (a ++ sep :: b) = split_on sep a ++ split_on sep b.
Proof.
  induction a as [|c a IH].
  - simpl. now rewrite Ascii.eqb_refl.
  - simpl. rewrite IH. destruct (Ascii.eqb c sep); [reflexivity|].
    destruct (split_on sep a) as [|q qs] eqn:E;
      [now apply split_on_not_nil in E|]. reflexivity.
Qed.

Lemma path_name_simple name :
  lacks slash name = true -> is_blank_part name = false ->
  path_name name = name.
Proof.
  intros Hs Hb. unfold path_name, path_parts.
  rewrite (split_on_lacks _ _ Hs). simpl. now rewrite Hb.
Qed.

(** The directories in front of a name do not count. *)
Lemma path_name_in_dir dir name :
  lacks slash name = true -> is_blank_part name = false ->
  path_name (dir ++ slash :: name) = name.
Proof.
  intros Hs Hb. unfold path_name, path_parts.
  rewrite split_on_app_sep, (split_on_lacks _ _ Hs), filter_app.
  simpl. rewrite Hb. simpl. apply last_last.
Qed.

Lemma rfind_lacks c s : lacks c s = true -> rfind c s = None.
Proof.
  induction s as [|x s IH]; [reflexivity|].
  simpl. intros H. apply andb_prop in H as [Hx Hs].
  apply negb_true_iff in Hx. now rewrite (IH Hs), Hx.
Qed.

Lemma rfind_last c stem e :
  lacks c e = true -> rfind c (stem ++ c :: e) = Some (length stem).
Proof.
  intros He. induction stem as [|x stem IH].
  - simpl. now rewrite (rfind_lacks _ _ He), Ascii.eqb_refl.
  - simpl. now rewrite IH.
Qed.

Lemma skipn_length_app {A : Type} (a b : list A) :
  skipn (length a) (a ++ b) = b.
Proof. induction a as [|x a IH]; [reflexivity|]. exact IH. Qed.

Lemma suffix_of_name_ext stem e :
  stem <> [] -> e <> [] -> lacks dot e = true ->
  suffix_of_name (stem ++ dot :: e) = dot :: e.
Proof.
  intros Hstem He Hdot. unfold suffix_of_name.
  rewrite (rfind_last _ _ _ Hdot), skipn_length_app.
  replace ((0 <? length stem)
           && (S (length stem) <? length (stem ++ dot :: e)))%nat
    with true; [reflexivity|].
  symmetry. apply andb_true_intro. split; apply Nat.ltb_lt.
  - destruct stem; [congruence|simpl; lia].
  - rewrite length_app. destruct e; [congruence|simpl; lia].
Qed.

Lemma named_not_blank stem e :
  stem <> [] -> e <> [] -> is_blank_part (stem ++ dot :: e) = false.
Proof.
  intros Hstem He. destruct stem as [|x [|y stem]]; [congruence| |reflexivity].
  destruct e; [congruence|reflexivity].
Qed.

Lemma lacks_app c a b : lacks c (a ++ b) = lacks c a && lacks c b.
Proof. apply forallb_app. Qed.

Lemma suffix_string name :
  suffix (string_of_list_ascii name)
  = string_of_list_ascii (suffix_of_name (path_name name)).
Proof.
  unfold suffix, on_chars. now rewrite list_ascii_of_string_of_list_ascii.
Qed.

(** X13: the extension of a file is what follows the last dot of its last
    path component: for a name [stem.e] with a non-empty stem (which may
    itself contain dots) and a non-empty [e] without dot, the suffix is
    [.e], also when the file sits in a directory of the archive, and the
    directory does not change which reader the file goes to. *)
Theorem extension_is_after_last_dot (dir stem e : list ascii) :
  stem <> [] -> e <> [] ->
  lacks slash stem = true -> lacks slash e = true -> lacks dot e = true ->
  suffix (string_of_list_ascii (stem ++ dot :: e))
  = string_of_list_ascii (dot :: e)
  /\ suffix (string_of_list_ascii (dir ++ slash :: stem ++ dot :: e))
     = string_of_list_ascii (dot :: e)
  /\ dispatch (string_of_list_ascii (dir ++ slash :: stem ++ dot :: e))
     = dispatch (string_of_list_ascii (stem ++ dot :: e)).
Proof.
  intros Hstem He Hs1 Hs2 Hdot.
  assert (lacks slash (stem ++ dot :: e) = true) as Hs.
  { rewrite lacks_app, Hs1. simpl. exact Hs2. }
  pose proof (named_not_blank stem e Hstem He) as Hb.
  assert (suffix (string_of_list_ascii (stem ++ dot :: e))
          = string_of_list_ascii (dot :: e)) as H1.
  { rewrite suffix_string, (path_name_simple _ Hs Hb).
    now rewrite suffix_of_name_ext. }
  assert (suffix (string_of_list_ascii (dir ++ slash :: stem ++ dot :: e))
          = string_of_list_ascii (dot :: e)) as H2.
  { rewrite suffix_string, (path_name_in_dir _ _ Hs Hb).
    now rewrite suffix_of_name_ext. }
  split; [exact H1|]. split; [exact H2|].
  unfold dispatch. now rewrite H1, H2.
Qed.

Lemma extension_is_after_last_dot_witness :
  suffix "reports/2024/q1.v2.XLSX" = ".XLSX"
  /\ dispatch "reports/2024/q1.v2.XLSX" = dispatch "q1.v2.XLSX".
Proof.
  destruct (extension_is_after_last_dot
              (list_ascii_of_string "reports/2024")
              (list_ascii_of_string "q1.v2")
              (list_ascii_of_string "XLSX")) as (_ & H2 & H3);
    try reflexivity; try discriminate.
  split; [exact H2|exact H3].
Defined.

(** X14: names that have no extension for [pathlib] are skipped as
    unsupported whatever their letters: a name without a dot, a name whose
    only dot is its first character (such as [.csv]), and a name that ends
    with a dot. *)
Theorem names_without_extension_are_skipped (name : list ascii) :
  lacks slash name = true ->
  lacks dot name = true
  \/ (exists e, name = dot :: e /\ lacks dot e = true)
  \/ (exists stem, name = stem ++ [dot]) ->
  dispatch (string_of_list_ascii name) = None.
Proof.
  intros Hs Hcases.
  assert (suffix_of_name name = []) as Hnone.
  { unfold suffix_of_name.
    destruct Hcases as [Hd|[(e & -> & Hd)|(stem & ->)]].
    - now rewrite (rfind_lacks _ _ Hd).
    - change (dot :: e) with ([] ++ dot :: e).
      rewrite (rfind_last dot [] e Hd). reflexivity.
    - rewrite (rfind_last dot stem [] eq_refl).
      rewrite length_app. simpl length.
      replace (S (length stem) <? length stem + 1)%nat with false;
        [now rewrite andb_false_r|].
      symmetry. apply Nat.ltb_ge. lia. }
  assert (suffix_of_name (path_name name) = []) as Hsuf.
  { unfold path_name, path_parts. rewrite (split_on_lacks _ _ Hs). simpl.
    destruct (is_blank_part name); [reflexivity|exact Hnone]. }
  unfold dispatch. rewrite suffix_string, Hsuf. reflexivity.
Qed.

Lemma names_without_extension_are_skipped_witness :
  lacks slash (list_ascii_of_string ".csv") = true
  /\ dispatch ".csv" = None.
Proof.
  split; [reflexivity|].
  apply (names_without_extension_are_skipped (list_ascii_of_string ".csv"));
    [reflexivity|].
  right. left. exists (list_ascii_of_string "csv"). now split.
Defined.
